(** * Skyline GPU buffers: guest/host mirroring, synchronisation, views, locking

    A shallow embedding of [app/src/main/cpp/skyline/gpu/buffer.cpp].

    Conventions.
    - [u8*], [size_t] and [vk::DeviceSize] values are 64-bit; they are kept in
      [Z], and the sums and differences of sizes and addresses computed by
      BufferSize and SetupGuestMappings are followed by [wrap64]. Offsets
      into one allocation (the running host pointer of the copy loops,
      [mirror.data() + offset]) are plain integers.
    - A call with no behaviour to embed (front() of an empty vector, a
      memcpy that leaves the mapped memory) yields [Undefined].
    - The file has no [throw]; [Throws] is never produced by a function here
      and only serves to state what a failing call would look like. *)

From Stdlib Require Import ZArith List Lia Bool Arith.
Import ListNotations.
Local Open Scope Z_scope.

(** ** Outcomes of calls *)

Inductive exception : Type := invalid_argument.

Inductive outcome (A : Type) : Type :=
| Returns (a : A)
| Throws (e : exception)
| Undefined.
Arguments Returns {A} a.
Arguments Throws {A} e.
Arguments Undefined {A}.

(** ** Integer helpers *)

Module Util.

Definition wrap64 (z : Z) : Z := z mod 2 ^ 64.

(** Modelled from the spec: the constant PAGE_SIZE is declared outside
    buffer.cpp; the spec speaks of "the page boundary" and the guest uses
    4 KiB pages. *)
Definition PAGE_SIZE : Z := 0x1000.

(** Modelled from the spec: util::AlignUp is declared outside buffer.cpp;
    "align up to the page boundary" for a power-of-two multiple, computed on
    64-bit values as [(value + (multiple - 1)) & ~(multiple - 1)]. *)
Definition AlignUp (value multiple : Z) : Z :=
  let m := multiple - 1 in
  Z.land (wrap64 (value + m)) (wrap64 (Z.lnot m)).

(** Modelled from the spec: util::AlignDown is declared outside buffer.cpp;
    "align down to the page boundary", [value & ~(multiple - 1)]. *)
Definition AlignDown (value multiple : Z) : Z :=
  Z.land value (wrap64 (Z.lnot (multiple - 1))).

Definition IsPageAligned (value : Z) : Prop := value mod PAGE_SIZE = 0.

End Util.
Import Util.

(** ** Guest region sets *)

Module Guest.

(** [span<u8>]: a pointer and a byte count. *)
Record span : Type := { data : Z; size : Z }.

Definition size_bytes (s : span) : Z := size s.

Definition span_end (s : span) : Z := data s + size s.

(** GuestBuffer::BufferSize, lines 11-16. *)
Definition BufferSize (mappings : list span) : Z :=
  fold_left (fun size buffer => wrap64 (size + size_bytes buffer)) mappings 0.

(** A span of the 64-bit address space whose end can still be rounded up
    to a page boundary without leaving it. *)
Definition span_wf (s : span) : Prop :=
  0 <= data s /\ 0 <= size s /\ data s + size s + PAGE_SIZE <= 2 ^ 64.

(** Unwrapped sum of the lengths, [sum(li)] of the spec. *)
Definition total_size (mappings : list span) : Z :=
  fold_right (fun s acc => size s + acc) 0 mappings.

(** [prefix_size k l] is [sum(l0..l(k-1))]. *)
Definition prefix_size (k : nat) (mappings : list span) : Z :=
  total_size (firstn k mappings).

Definition in_span (s : span) (a : Z) : Prop := data s <= a < data s + size s.

(** Pairwise disjointness of the regions of a set. *)
Fixpoint non_overlapping (mappings : list span) : Prop :=
  match mappings with
  | [] => True
  | s :: rest =>
      Forall (fun t => forall a, in_span s a -> ~ in_span t a) rest
      /\ non_overlapping rest
  end.

End Guest.
Import Guest.

(** ** Mirror construction *)

Module Mirror.

(** What is asked of the mirror mapping service. *)
Inductive MirrorRequest : Type :=
| CreateMirror (alignedData alignedSize : Z)
| CreateMirrors (alignedMappings : list span).

(** [alignedMirror] is what the service returned for the request; [mirror]
    is [alignedMirror.subspan(mirror_offset, mirror_size)]. *)
Record GuestMirror : Type := {
  alignedMirror : MirrorRequest;
  mirror_offset : Z;
  mirror_size : Z
}.

(** The loop of lines 35-39: every element strictly between the first and
    the last is re-emplaced as it is and its size is added to the total. *)
Definition internal_spans (rest : list span) : list span :=
  map (fun it => {| data := data it; size := size it |}) (removelast rest).

Definition internal_total (totalSize : Z) (rest : list span) : Z :=
  fold_left (fun total it => wrap64 (total + size it)) (removelast rest) totalSize.

(** Buffer::SetupGuestMappings, lines 18-48. *)
Definition SetupGuestMappings (mappings : list span) : outcome GuestMirror :=
  match mappings with
  | [] => Undefined (* mappings.front() on an empty vector *)
  | [mapping] =>
      let alignedData := AlignDown (data mapping) PAGE_SIZE in
      let alignedSize :=
        wrap64 (AlignUp (wrap64 (data mapping + size mapping)) PAGE_SIZE - alignedData) in
      Returns {| alignedMirror := CreateMirror alignedData alignedSize;
                 mirror_offset := wrap64 (data mapping - alignedData);
                 mirror_size := size mapping |}
  | frontMapping :: rest =>
      let alignedData := AlignDown (data frontMapping) PAGE_SIZE in
      let first :=
        {| data := alignedData;
           size := wrap64 (wrap64 (data frontMapping + size frontMapping) - alignedData) |} in
      let totalSize := internal_total (size frontMapping) rest in
      let backMapping := last rest frontMapping in
      let totalSize := wrap64 (totalSize + size backMapping) in
      let back :=
        {| data := data backMapping; size := AlignUp (size backMapping) PAGE_SIZE |} in
      Returns {| alignedMirror := CreateMirrors (first :: internal_spans rest ++ [back]);
                 mirror_offset := wrap64 (data frontMapping - alignedData);
                 mirror_size := totalSize |}
  end.

(** Modelled from the spec: the Mirror Mapping Service (CreateMirror,
    CreateMirrors) is declared outside buffer.cpp. "Given one or more guest
    spans, produces a single contiguous virtual mapping over the same
    physical memory": byte [j] of the mapping is byte [j] of the
    concatenation of the requested spans. *)
Fixpoint spans_address (spans : list span) (j : Z) : option Z :=
  match spans with
  | [] => None
  | s :: rest =>
      if j <? size s then Some (data s + j) else spans_address rest (j - size s)
  end.

Definition requested_spans (r : MirrorRequest) : list span :=
  match r with
  | CreateMirror alignedData alignedSize => [{| data := alignedData; size := alignedSize |}]
  | CreateMirrors alignedMappings => alignedMappings
  end.

(** Guest address aliased by the byte at [mirror.data() + o], which is byte
    [mirror_offset + o] of the aligned mapping, whether or not [o] is below
    [mirror.size()]; [o] is unsigned. Past the end of the aligned mapping
    there is no byte. *)
Definition mirror_address (m : GuestMirror) (o : Z) : option Z :=
  if 0 <=? o
  then spans_address (requested_spans (alignedMirror m)) (mirror_offset m + o)
  else None.

(** *** The construction as the specification words it

    Page rounding as plain arithmetic, no machine words. *)
Definition page_floor (a : Z) : Z := PAGE_SIZE * (a / PAGE_SIZE).
Definition page_ceil (a : Z) : Z := PAGE_SIZE * ((a + PAGE_SIZE - 1) / PAGE_SIZE).

(** "Align the region's start address down and its end address up; request
    one mirror mapping over that aligned range; the logical mirror is the
    sub-range corresponding to the original unaligned region." *)
Definition spec_single (mapping : span) : GuestMirror :=
  let lo := page_floor (data mapping) in
  let hi := page_ceil (span_end mapping) in
  {| alignedMirror := CreateMirror lo (hi - lo);
     mirror_offset := data mapping - lo;
     mirror_size := size mapping |}.

(** "Align only the first region's start down and the last region's end up;
    internal regions are passed through unaligned; request one combined
    mirror mapping; the logical mirror spans from the first region's true
    start to the true end of all regions." *)
Definition spec_multi (front : span) (internal : list span) (back : span) : GuestMirror :=
  let lo := page_floor (data front) in
  {| alignedMirror :=
       CreateMirrors ({| data := lo; size := span_end front - lo |}
                        :: internal
                        ++ [{| data := data back;
                               size := page_ceil (span_end back) - data back |}]);
     mirror_offset := data front - lo;
     mirror_size := total_size (front :: internal ++ [back]) |}.

Definition spec_SetupGuestMappings (mappings : list span) : outcome GuestMirror :=
  match mappings with
  | [] => Undefined
  | [mapping] => Returns (spec_single mapping)
  | front :: rest => Returns (spec_multi front (removelast rest) (last rest front))
  end.

End Mirror.
Import Mirror.

(** ** Buffers: state, fences, synchronisation *)

Module Sync.

(** Byte-addressed memory: guest memory by address, the host backing by
    offset from [backing.data()]. *)
Definition mem : Type := Z -> Byte.byte.

(** Identity of a FenceCycle object; a null [shared_ptr] is [None]. *)
Definition CycleId : Type := nat.

(** Identity of a BufferView object on the heap. *)
Definition ViewId : Type := nat.

Record BufferView : Type := { offset : Z; range : Z; format : Z }.

(** A heap cell: the view and whether a [shared_ptr] still owns it. *)
Record ViewCell : Type := { cell_view : BufferView; alive : bool }.

Inductive event : Type :=
| EvLock
| EvUnlock
| EvWait (c : CycleId)
| EvAttach (c : CycleId)
| EvCopyToHost
| EvCopyToGuest
| EvMunmap (r : MirrorRequest).

Record Buffer : Type := {
  buffer_size : Z;                 (* size *)
  mappings : list span;            (* guest.mappings *)
  mirror : option GuestMirror;     (* alignedMirror and mirror, once valid *)
  cycle : option CycleId;          (* what cycle.lock() yields *)
  views : list ViewId;             (* weak references, in push_back order *)
  backing : mem;                   (* contents of the host allocation *)
  memory : mem;                    (* contents of guest memory *)
  attached : list CycleId;         (* one entry per BufferGuestSync attached *)
  heap : list ViewCell;            (* BufferView objects ever made *)
  trace : list event               (* calls made so far, oldest first *)
}.

Definition set_cycle (c : option CycleId) (s : Buffer) : Buffer :=
  {| buffer_size := buffer_size s; mappings := mappings s; mirror := mirror s;
     cycle := c; views := views s; backing := backing s; memory := memory s;
     attached := attached s; heap := heap s; trace := trace s |}.

Definition set_backing (b : mem) (s : Buffer) : Buffer :=
  {| buffer_size := buffer_size s; mappings := mappings s; mirror := mirror s;
     cycle := cycle s; views := views s; backing := b; memory := memory s;
     attached := attached s; heap := heap s; trace := trace s |}.

Definition set_memory (m : mem) (s : Buffer) : Buffer :=
  {| buffer_size := buffer_size s; mappings := mappings s; mirror := mirror s;
     cycle := cycle s; views := views s; backing := backing s; memory := m;
     attached := attached s; heap := heap s; trace := trace s |}.

Definition set_attached (l : list CycleId) (s : Buffer) : Buffer :=
  {| buffer_size := buffer_size s; mappings := mappings s; mirror := mirror s;
     cycle := cycle s; views := views s; backing := backing s; memory := memory s;
     attached := l; heap := heap s; trace := trace s |}.

Definition set_views (v : list ViewId) (h : list ViewCell) (s : Buffer) : Buffer :=
  {| buffer_size := buffer_size s; mappings := mappings s; mirror := mirror s;
     cycle := cycle s; views := v; backing := backing s; memory := memory s;
     attached := attached s; heap := h; trace := trace s |}.

Definition emit (e : event) (s : Buffer) : Buffer :=
  {| buffer_size := buffer_size s; mappings := mappings s; mirror := mirror s;
     cycle := cycle s; views := views s; backing := backing s; memory := memory s;
     attached := attached s; heap := heap s; trace := trace s ++ [e] |}.

(** [std::memcpy(dst + d, src + s, n)]. *)
Definition memcpy (dst : mem) (d : Z) (src : mem) (s : Z) (n : Z) : mem :=
  fun a => if (d <=? a) && (a <? d + n) then src (s + (a - d)) else dst a.

(** Lines 77-82 (and, verbatim, 91-96): every region is copied to the
    running [host] pointer, which then advances by the region's size. *)
Fixpoint copy_to_host (ms : list span) (host : Z) (guest backing : mem) : mem :=
  match ms with
  | [] => backing
  | mapping :: rest =>
      let mappingSize := size_bytes mapping in
      copy_to_host rest (host + mappingSize) guest
                   (memcpy backing host guest (data mapping) mappingSize)
  end.

(** Lines 104-109: the same walk in the other direction. *)
Fixpoint copy_to_guest (ms : list span) (host : Z) (backing guest : mem) : mem :=
  match ms with
  | [] => guest
  | mapping :: rest =>
      let mappingSize := size_bytes mapping in
      copy_to_guest rest (host + mappingSize) backing
                    (memcpy guest (data mapping) backing host mappingSize)
  end.

Definition guest_to_host (s : Buffer) : Buffer :=
  emit EvCopyToHost
       (set_backing (copy_to_host (mappings s) 0 (memory s) (backing s)) s).

Definition host_to_guest (s : Buffer) : Buffer :=
  emit EvCopyToGuest
       (set_memory (copy_to_guest (mappings s) 0 (backing s) (memory s)) s).

Section Fences.

(** What the GPU work submitted under a cycle has written to the host
    backing by the time the cycle completes. *)
Variable gpu_work : CycleId -> mem -> mem.

(** Modelled from the spec: FenceCycle::Wait is declared outside
    buffer.cpp; on a cycle whose work has completed, "wait()" has nothing to
    block on and returns at once. *)
Definition FenceCycle_Wait_completed (c : CycleId) (s : Buffer) : Buffer :=
  emit (EvWait c) s.

(** Buffer::WaitOnFence, lines 62-70, as it runs inside a completion action:
    the cycle it finds pending is a completed one. *)
Definition WaitOnFence_completed (s : Buffer) : Buffer :=
  match cycle s with
  | Some lCycle => set_cycle None (FenceCycle_Wait_completed lCycle s)
  | None => s
  end.

(** ~BufferGuestSync, lines 120-123: [buffer->SynchronizeGuest()], lines
    99-110, run by a cycle that has completed. *)
Definition BufferGuestSync_destroy (s : Buffer) : Buffer :=
  host_to_guest (WaitOnFence_completed s).

(** Modelled from the spec: the FenceCycle keeps its attached objects and
    lets go of them when it completes; [n] BufferGuestSync objects of this
    Buffer are destroyed one after the other. *)
Fixpoint destroy_dependencies (n : nat) (s : Buffer) : Buffer :=
  match n with
  | O => s
  | S n' => destroy_dependencies n' (BufferGuestSync_destroy s)
  end.

Definition cycle_eqb (a b : option CycleId) : bool :=
  match a, b with
  | Some x, Some y => Nat.eqb x y
  | None, None => true
  | _, _ => false
  end.

(** Modelled from the spec: the completion of a FenceCycle happens outside
    buffer.cpp. As this Buffer sees the completion of [c]: the GPU work has
    written the backing, and every completion action attached to [c] "runs
    once, after completion" and is gone. *)
Definition complete (c : CycleId) (s : Buffer) : Buffer :=
  let n := count_occ Nat.eq_dec (attached s) c in
  let s1 := set_backing (gpu_work c (backing s)) s in
  let s2 := set_attached (filter (fun x => negb (Nat.eqb x c)) (attached s1)) s1 in
  destroy_dependencies n s2.

(** Modelled from the spec: FenceCycle::Wait is declared outside
    buffer.cpp. "wait() (blocking)"; completion actions run "once, after
    completion": the call returns with the cycle completed. *)
Definition FenceCycle_Wait (c : CycleId) (s : Buffer) : Buffer :=
  complete c (emit (EvWait c) s).

(** Modelled from the spec: FenceCycle::AttachObject is declared outside
    buffer.cpp; "attach_completion_action(action)" records the action
    with the cycle. *)
Definition FenceCycle_AttachObject (c : CycleId) (s : Buffer) : Buffer :=
  emit (EvAttach c) (set_attached (attached s ++ [c]) s).

(** Buffer::WaitOnFence, lines 62-70. *)
Definition WaitOnFence (s : Buffer) : Buffer :=
  match cycle s with
  | Some lCycle => set_cycle None (FenceCycle_Wait lCycle s)
  | None => s
  end.

(** Buffer::SynchronizeHost, lines 72-83. *)
Definition SynchronizeHost (s : Buffer) : Buffer :=
  guest_to_host (WaitOnFence s).

(** Buffer::SynchronizeHostWithCycle, lines 85-97. *)
Definition SynchronizeHostWithCycle (pCycle : option CycleId) (s : Buffer) : Buffer :=
  guest_to_host (if negb (cycle_eqb pCycle (cycle s)) then WaitOnFence s else s).

(** Buffer::SynchronizeGuest, lines 99-110. *)
Definition SynchronizeGuest (s : Buffer) : Buffer :=
  host_to_guest (WaitOnFence s).

(** Buffer::SynchronizeGuestWithCycle, lines 126-132; [pCycle] is
    dereferenced, so it is not null. *)
Definition SynchronizeGuestWithCycle (pCycle : CycleId) (s : Buffer) : Buffer :=
  let s1 := if negb (cycle_eqb (Some pCycle) (cycle s)) then WaitOnFence s else s in
  set_cycle (Some pCycle) (FenceCycle_AttachObject pCycle s1).

(** Modelled from the spec: the destructor calls SynchronizeGuest with
    one argument, a signature that buffer.cpp does not define (lines
    99-110 take none). "forced = true, meaning it must wait for any
    outstanding fence even though the Buffer is being torn down". *)
Definition SynchronizeGuest_forced (forced : bool) (s : Buffer) : Buffer :=
  if forced then host_to_guest (WaitOnFence s) else SynchronizeGuest s.

(** Buffer::~Buffer, lines 55-60. The lock guard releases at the end of
    the scope. *)
Definition Buffer_destroy (s : Buffer) : Buffer :=
  let s1 := emit EvLock s in
  let s2 := SynchronizeGuest_forced true s1 in
  let s3 := match mirror s2 with
            | Some m => emit (EvMunmap (alignedMirror m)) s2
            | None => s2
            end in
  emit EvUnlock s3.

(** Buffer::Buffer, lines 50-53; [backing0] is whatever the allocator
    handed out. *)
Definition Buffer_new (guest : list span) (memory0 backing0 : mem) : outcome Buffer :=
  let size := BufferSize guest in
  match SetupGuestMappings guest with
  | Returns m =>
      Returns (SynchronizeHost
                 {| buffer_size := size; mappings := guest; mirror := Some m;
                    cycle := None; views := []; backing := backing0;
                    memory := memory0; attached := []; heap := [];
                    trace := [] |})
  | Throws e => Throws e
  | Undefined => Undefined
  end.

(** What can happen to one Buffer: the calls of buffer.cpp, and the
    completion of a cycle without this Buffer waiting for it. *)
Inductive operation : Type :=
| OpWaitOnFence
| OpSynchronizeHost
| OpSynchronizeHostWithCycle (pCycle : option CycleId)
| OpSynchronizeGuest
| OpSynchronizeGuestWithCycle (pCycle : CycleId)
| OpCycleCompletes (c : CycleId).

Definition perform (op : operation) (s : Buffer) : Buffer :=
  match op with
  | OpWaitOnFence => WaitOnFence s
  | OpSynchronizeHost => SynchronizeHost s
  | OpSynchronizeHostWithCycle pCycle => SynchronizeHostWithCycle pCycle s
  | OpSynchronizeGuest => SynchronizeGuest s
  | OpSynchronizeGuestWithCycle pCycle => SynchronizeGuestWithCycle pCycle s
  | OpCycleCompletes c => complete c s
  end.

Definition perform_all (ops : list operation) (s : Buffer) : Buffer :=
  fold_left (fun acc op => perform op acc) ops s.

End Fences.

(** Deferred guest updates not yet run. *)
Definition outstanding (s : Buffer) : nat := length (attached s).

(** Every deferred guest update not yet run hangs on the pending cycle. *)
Definition on_pending_cycle (s : Buffer) : Prop :=
  forall c, In c (attached s) -> cycle s = Some c.

(** What [n] completion actions add to the trace: the first finds
    [pending] and waits on it (at once), resetting it; all of them copy. *)
Definition action_events (pending : option CycleId) (n : nat) : list event :=
  match n with
  | O => []
  | S _ => match pending with
           | Some c => [EvWait c]
           | None => []
           end ++ repeat EvCopyToGuest n
  end.

(** What a wait for the pending cycle adds to the trace: the wait, then
    what the completion actions attached to that cycle do. *)
Definition wait_events (s : Buffer) : list event :=
  match cycle s with
  | Some c => EvWait c :: action_events (Some c) (count_occ Nat.eq_dec (attached s) c)
  | None => []
  end.

(** [agrees ms host guest backing]: walking the regions with the running
    host offset, every region's bytes equal the backing bytes at its place
    in the flat concatenation. *)
Fixpoint agrees (ms : list span) (host : Z) (guest backing : mem) : Prop :=
  match ms with
  | [] => True
  | mapping :: rest =>
      (forall i, 0 <= i < size mapping -> backing (host + i) = guest (data mapping + i))
      /\ agrees rest (host + size mapping) guest backing
  end.

(** *** Writes through the mirror *)

Definition store (m : mem) (a : Z) (b : Byte.byte) : mem :=
  fun x => if x =? a then b else m x.

(** The bytes of [memcpy(mirror.data() + o, data, n)], lowest address
    first; a byte outside the aligned mapping has no defined target. *)
Fixpoint write_bytes (m : GuestMirror) (o : Z) (bytes : list Byte.byte) (guest : mem)
  : outcome mem :=
  match bytes with
  | [] => Returns guest
  | b :: rest =>
      match mirror_address m o with
      | Some a => write_bytes m (o + 1) rest (store guest a b)
      | None => Undefined
      end
  end.

(** Buffer::Write, lines 134-136. *)
Definition Write (bytes : list Byte.byte) (offset : Z) (s : Buffer) : outcome Buffer :=
  match mirror s with
  | None => Undefined
  | Some m =>
      match write_bytes m offset bytes (memory s) with
      | Returns g => Returns (set_memory g s)
      | Throws e => Throws e
      | Undefined => Undefined
      end
  end.

(** [mirror.size()]. *)
Definition mirror_length (s : Buffer) : Z :=
  match mirror s with
  | Some m => mirror_size m
  | None => 0
  end.



(** *** Views *)

(** [viewWeak.lock()]. *)
Definition lock_weak (h : list ViewCell) (w : ViewId) : option BufferView :=
  match nth_error h w with
  | Some c => if alive c then Some (cell_view c) else None
  | None => None
  end.

Definition view_matches (v : BufferView) (o r f : Z) : bool :=
  (offset v =? o) && (range v =? r) && (format v =? f).

(** The loop of lines 139-143. *)
Fixpoint find_view (h : list ViewCell) (o r f : Z) (ws : list ViewId) : option ViewId :=
  match ws with
  | [] => None
  | viewWeak :: rest =>
      match lock_weak h viewWeak with
      | Some view => if view_matches view o r f then Some viewWeak
                     else find_view h o r f rest
      | None => find_view h o r f rest
      end
  end.

(** Buffer::GetView, lines 138-148. *)
Definition GetView (o r f : Z) (s : Buffer) : outcome (ViewId * Buffer) :=
  match find_view (heap s) o r f (views s) with
  | Some view => Returns (view, s)
  | None =>
      let view := length (heap s) in
      let cell := {| cell_view := {| offset := o; range := r; format := f |};
                     alive := true |} in
      Returns (view, set_views (views s ++ [view]) (heap s ++ [cell]) s)
  end.

(** The last owner of a view lets go of it. *)
Fixpoint kill (h : list ViewCell) (w : ViewId) : list ViewCell :=
  match h, w with
  | [], _ => []
  | c :: rest, O => {| cell_view := cell_view c; alive := false |} :: rest
  | c :: rest, S w' => c :: kill rest w'
  end.

Definition release_view (w : ViewId) (s : Buffer) : Buffer :=
  set_views (views s) (kill (heap s) w) s.

Inductive view_operation : Type :=
| VGetView (o r f : Z)
| VRelease (w : ViewId).

Definition perform_view (op : view_operation) (s : Buffer) : Buffer :=
  match op with
  | VGetView o r f =>
      match GetView o r f s with
      | Returns (_, s') => s'
      | _ => s
      end
  | VRelease w => release_view w s
  end.

Definition perform_views (ops : list view_operation) (s : Buffer) : Buffer :=
  fold_left (fun acc op => perform_view op acc) ops s.

(** A Buffer fresh from its constructor has no views. *)
Definition no_views (s : Buffer) : Prop := views s = [] /\ heap s = [].

(** The weak references of the cache whose view is alive. *)
Definition live_view (s : Buffer) (w : ViewId) (v : BufferView) : Prop :=
  In w (views s) /\ lock_weak (heap s) w = Some v.

(** No two weak references of the cache lead to live views with the same
    (offset, range, format). *)
Definition deduplicated (s : Buffer) : Prop :=
  forall w1 w2 v, live_view s w1 v -> live_view s w2 v -> w1 = w2.

(** Every weak reference of the cache points into the heap. *)
Definition views_in_heap (s : Buffer) : Prop :=
  forall w, In w (views s) -> (w < length (heap s))%nat.

(** [a] lies in none of the Buffer's guest regions. *)
Definition outside_regions (s : Buffer) (a : Z) : Prop :=
  Forall (fun t => ~ in_span t a) (mappings s).

(** [s'] has the geometry, the mirror and the views of [s], and the guest
    memory of [s] wherever no region of the Buffer lies. *)
Definition same_frame (s s' : Buffer) : Prop :=
  mappings s' = mappings s
  /\ mirror s' = mirror s
  /\ buffer_size s' = buffer_size s
  /\ views s' = views s
  /\ heap s' = heap s
  /\ forall a, outside_regions s a -> memory s' a = memory s a.

End Sync.
Import Sync.

(** ** Concrete inputs used to exercise the statements *)

Module Examples.

Definition idle_gpu : CycleId -> mem -> mem := fun _ m => m.

Definition zeroed : mem := fun _ => Byte.x00.

Definition two_regions : list span :=
  [{| data := 0x1000; size := 0x20 |}; {| data := 0x4000; size := 0x10 |}].

Definition overlapping_regions : list span :=
  [{| data := 0x1000; size := 0x2000 |}; {| data := 0x2000; size := 0x1000 |}].

(** A Buffer over [two_regions] as the constructor leaves it. *)
Definition fresh : Buffer :=
  match Buffer_new idle_gpu two_regions zeroed zeroed with
  | Returns s => s
  | _ => {| buffer_size := 0; mappings := []; mirror := None; cycle := None;
            views := []; backing := zeroed; memory := zeroed; attached := [];
            heap := []; trace := [] |}
  end.

(** Guest memory with recognisable contents. *)
Definition striped : mem := fun a => if Z.even a then Byte.x11 else Byte.x22.

(** A GPU that fills the first backing byte. *)
Definition marking_gpu : CycleId -> mem -> mem :=
  fun _ m => fun o => if o =? 0 then Byte.xff else m o.



End Examples.
Import Examples.

(** ** BufferView locking under replacement of the Buffer *)

Module ViewLock.

Definition BufferId : Type := nat.
Definition ThreadId : Type := nat.

(** The thread that runs [lock()] or [try_lock()]. *)
Definition caller : ThreadId := O.

(** What all threads share: the view's [buffer] slot, read and written
    atomically, and the owner of every Buffer's mutex. *)
Record shared : Type := {
  buffer : BufferId;
  owner : BufferId -> option ThreadId
}.

Definition holds (w : shared) (b : BufferId) : Prop := owner w b = Some caller.

Definition set_owner (b : BufferId) (o : option ThreadId) (w : shared) : shared :=
  {| buffer := buffer w;
     owner := fun x => if Nat.eqb x b then o else owner w x |}.

Definition set_buffer (b : BufferId) (w : shared) : shared :=
  {| buffer := b; owner := owner w |}.

(** Where the caller stands; the locals [backing], [latestBacking] and
    [success] are carried along. *)
Inductive pc : Type :=
| LockEntry                                        (* lock(), line 153 *)
| LockAcquire (backing : BufferId)                 (* line 155 *)
| LockRecheck (backing : BufferId)                 (* lines 157-158 *)
| LockRelease (backing latestBacking : BufferId)   (* lines 161-162 *)
| LockReturned (backing : BufferId)                (* line 159 *)
| TryEntry                                         (* try_lock(), line 171 *)
| TryAcquire (backing : BufferId)                  (* line 173 *)
| TryRecheck (backing : BufferId) (success : bool) (* lines 175-176 *)
| TryRelease (backing latestBacking : BufferId)    (* lines 182-183 *)
| TryReturned (backing : BufferId) (success : bool). (* line 178 *)

(** One atomic step of the interleaving. *)
Inductive label : Type :=
| Step                                   (* the caller's next statement *)
| StepSpurious                           (* a try_lock that fails on a free mutex *)
| Swap (b : BufferId)                    (* some thread stores [b] in the slot *)
| OtherLock (t : ThreadId) (b : BufferId)
| OtherUnlock (t : ThreadId) (b : BufferId).

Definition config : Type := (pc * shared)%type.

Definition caller_step (p : pc) (w : shared) : option config :=
  match p with
  | LockEntry => Some (LockAcquire (buffer w), w)
  | LockAcquire backing =>
      match owner w backing with
      | None => Some (LockRecheck backing, set_owner backing (Some caller) w)
      | Some _ => None (* blocked *)
      end
  | LockRecheck backing =>
      let latestBacking := buffer w in
      if Nat.eqb backing latestBacking
      then Some (LockReturned backing, w)
      else Some (LockRelease backing latestBacking, w)
  | LockRelease backing latestBacking =>
      Some (LockAcquire latestBacking, set_owner backing None w)
  | LockReturned _ => None
  | TryEntry => Some (TryAcquire (buffer w), w)
  | TryAcquire backing =>
      match owner w backing with
      | None => Some (TryRecheck backing true, set_owner backing (Some caller) w)
      | Some _ => Some (TryRecheck backing false, w)
      end
  | TryRecheck backing success =>
      let latestBacking := buffer w in
      if Nat.eqb backing latestBacking
      then Some (TryReturned backing success, w)
      else if success
           then Some (TryRelease backing latestBacking, w)
           else Some (TryAcquire latestBacking, w)
  | TryRelease backing latestBacking =>
      Some (TryAcquire latestBacking, set_owner backing None w)
  | TryReturned _ _ => None
  end.

Definition thread_eqb (o : option ThreadId) (t : ThreadId) : bool :=
  match o with
  | Some u => Nat.eqb u t
  | None => false
  end.

Definition exec (l : label) (c : config) : option config :=
  let '(p, w) := c in
  match l with
  | Step => caller_step p w
  | StepSpurious =>
      match p with
      | TryAcquire backing => Some (TryRecheck backing false, w)
      | _ => None
      end
  | Swap b => Some (p, set_buffer b w)
  | OtherLock t b =>
      if Nat.eqb t caller then None
      else match owner w b with
           | None => Some (p, set_owner b (Some t) w)
           | Some _ => None
           end
  | OtherUnlock t b =>
      if Nat.eqb t caller then None
      else if thread_eqb (owner w b) t then Some (p, set_owner b None w)
           else None
  end.

Fixpoint run (schedule : list label) (c : config) : option config :=
  match schedule with
  | [] => Some c
  | l :: rest =>
      match exec l c with
      | Some c' => run rest c'
      | None => None
      end
  end.

(** A call starts at its first line, the caller holding no Buffer mutex. *)
Definition initial (c : config) : Prop :=
  (fst c = LockEntry \/ fst c = TryEntry) /\ forall b, ~ holds (snd c) b.

Definition is_swap (l : label) : bool :=
  match l with
  | Swap _ => true
  | _ => false
  end.

Definition is_environment (l : label) : bool :=
  match l with
  | Step | StepSpurious => false
  | _ => true
  end.

(** [lock()] stands at line 155 with [backing]; it acquires, the
    environment makes the moves [env], and the re-check lets it return. *)
Definition returns_after (w : shared) (backing : BufferId) (env : list label) : Prop :=
  forallb is_environment env = true
  /\ exists w', run (Step :: env ++ [Step]) (LockAcquire backing, w)
                = Some (LockReturned backing, w').

(** What the caller holds according to where it stands. *)
Definition held_at (p : pc) : option BufferId :=
  match p with
  | LockRecheck b | LockRelease b _ | LockReturned b => Some b
  | TryRecheck b true | TryRelease b _ | TryReturned b true => Some b
  | _ => None
  end.

Definition lock_invariant (c : config) : Prop :=
  forall b, holds (snd c) b <-> held_at (fst c) = Some b.

(** A view on Buffer 1 whose mutexes are all free. *)
Definition view_on_1 : shared := {| buffer := 1%nat; owner := fun _ => None |}.

(** BufferView::unlock, lines 166-168: the slot is read and that Buffer is
    unlocked; unlocking a mutex the caller does not own is undefined. *)
Definition unlock (w : shared) : outcome shared :=
  if thread_eqb (owner w (buffer w)) caller
  then Returns (set_owner (buffer w) None w)
  else Undefined.

(** Moves of the environment that leave the slot alone. *)
Definition swap_free (env : list label) : bool :=
  forallb (fun l => is_environment l && negb (is_swap l)) env.

End ViewLock.

Import ViewLock.

(** * Proofs *)

(** ** Page rounding on machine words *)

Lemma wrap64_small (z : Z) : 0 <= z < 2 ^ 64 -> wrap64 z = z.
Proof. intros H. unfold wrap64. now apply Z.mod_small. Qed.

Lemma testbit_above (x n : Z) : 0 <= x < 2 ^ 64 -> 64 <= n -> Z.testbit x n = false.
Proof.
  intros [H0 H1] Hn.
  destruct (Z.eq_dec x 0) as [->|Hx]; [apply Z.bits_0|].
  apply Z.bits_above_log2; [assumption|].
  assert (Z.log2 x < 64) by (apply Z.log2_lt_pow2; lia).
  lia.
Qed.

Lemma land_page_mask (x : Z) :
  0 <= x < 2 ^ 64 ->
  Z.land x (wrap64 (Z.lnot (PAGE_SIZE - 1))) = page_floor x.
Proof.
  intros Hx.
  change (wrap64 (Z.lnot (PAGE_SIZE - 1))) with (Z.shiftl (Z.ones 52) 12).
  unfold page_floor.
  replace (PAGE_SIZE * (x / PAGE_SIZE)) with (Z.shiftl (Z.shiftr x 12) 12).
  2:{ rewrite Z.shiftl_mul_pow2, Z.shiftr_div_pow2 by lia.
      change (2 ^ 12) with PAGE_SIZE. ring. }
  apply Z.bits_inj'. intros n Hn.
  rewrite Z.land_spec.
  destruct (Z.lt_ge_cases n 12) as [Hlow|Hhigh].
  - rewrite !Z.shiftl_spec_low by lia. apply andb_false_r.
  - rewrite !Z.shiftl_spec by lia. rewrite Z.shiftr_spec by lia.
    replace (n - 12 + 12) with n by lia.
    destruct (Z.lt_ge_cases n 64) as [Hin|Hout].
    + rewrite Z.ones_spec_low by lia. apply andb_true_r.
    + rewrite Z.ones_spec_high by lia. rewrite andb_false_r.
      symmetry. now apply testbit_above.
Qed.

Lemma AlignDown_page (a : Z) :
  0 <= a < 2 ^ 64 -> AlignDown a PAGE_SIZE = page_floor a.
Proof. intros H. unfold AlignDown. now apply land_page_mask. Qed.

Lemma AlignUp_page (a : Z) :
  0 <= a -> a + PAGE_SIZE <= 2 ^ 64 -> AlignUp a PAGE_SIZE = page_ceil a.
Proof.
  intros H0 H1. unfold AlignUp. cbv zeta.
  assert (Hp : PAGE_SIZE = 4096) by reflexivity.
  rewrite wrap64_small by lia.
  rewrite land_page_mask by lia.
  unfold page_floor, page_ceil. do 2 f_equal. lia.
Qed.

Lemma page_floor_bounds (a : Z) : page_floor a <= a < page_floor a + PAGE_SIZE.
Proof.
  unfold page_floor. assert (Hp : PAGE_SIZE = 4096) by reflexivity. rewrite Hp.
  pose proof (Z.mul_div_le a 4096 ltac:(lia)).
  pose proof (Z.mul_succ_div_gt a 4096 ltac:(lia)). lia.
Qed.

Lemma page_ceil_bounds (a : Z) : a <= page_ceil a < a + PAGE_SIZE.
Proof.
  unfold page_ceil. assert (Hp : PAGE_SIZE = 4096) by reflexivity. rewrite Hp.
  pose proof (Z.mul_div_le (a + 4096 - 1) 4096 ltac:(lia)).
  pose proof (Z.mul_succ_div_gt (a + 4096 - 1) 4096 ltac:(lia)). lia.
Qed.

Lemma page_floor_nonneg (a : Z) : 0 <= a -> 0 <= page_floor a.
Proof.
  intros H. unfold page_floor. assert (Hp : PAGE_SIZE = 4096) by reflexivity.
  rewrite Hp. pose proof (Z.div_pos a 4096 H ltac:(lia)). lia.
Qed.

Lemma page_floor_aligned (a : Z) : IsPageAligned (page_floor a).
Proof.
  unfold IsPageAligned, page_floor. rewrite Z.mul_comm. apply Z.mod_mul.
  discriminate.
Qed.

Lemma page_ceil_aligned (a : Z) : IsPageAligned (page_ceil a).
Proof.
  unfold IsPageAligned, page_ceil. rewrite Z.mul_comm. apply Z.mod_mul.
  discriminate.
Qed.

Lemma page_ceil_shift (d s : Z) :
  IsPageAligned d -> page_ceil (d + s) = d + page_ceil s.
Proof.
  unfold IsPageAligned, page_ceil. intros Hd.
  assert (Hp : PAGE_SIZE = 4096) by reflexivity. rewrite Hp in *.
  pose proof (Z.div_mod d 4096 ltac:(lia)) as Hq. rewrite Hd in Hq.
  replace (d + s + 4096 - 1) with ((s + 4096 - 1) + (d / 4096) * 4096) by lia.
  rewrite Z.div_add by lia. lia.
Qed.

(** ** Sums of region lengths *)

Lemma span_wf_nonneg (l : list span) :
  Forall span_wf l -> Forall (fun s => 0 <= size s) l.
Proof. apply Forall_impl. intros s (_ & H & _). exact H. Qed.

Lemma total_size_nonneg (l : list span) :
  Forall (fun s => 0 <= size s) l -> 0 <= total_size l.
Proof. induction 1; simpl; lia. Qed.

Lemma total_size_cons (s : span) (l : list span) :
  total_size (s :: l) = size s + total_size l.
Proof. reflexivity. Qed.

Lemma total_size_app (l1 l2 : list span) :
  total_size (l1 ++ l2) = total_size l1 + total_size l2.
Proof. induction l1; simpl; lia. Qed.

Lemma fold_wrap_total (l : list span) (acc : Z) :
  Forall (fun s => 0 <= size s) l ->
  0 <= acc -> acc + total_size l < 2 ^ 64 ->
  fold_left (fun total it => wrap64 (total + size it)) l acc = acc + total_size l.
Proof.
  intros Hl. revert acc. induction Hl as [|s l Hs Hl IH]; intros acc Hacc Hsum; simpl in *.
  - lia.
  - pose proof (total_size_nonneg l Hl).
    rewrite wrap64_small by lia. rewrite IH by lia. lia.
Qed.

Lemma BufferSize_total (l : list span) :
  Forall (fun s => 0 <= size s) l -> total_size l < 2 ^ 64 ->
  BufferSize l = total_size l.
Proof.
  intros Hl Hsum. unfold BufferSize, size_bytes.
  rewrite fold_wrap_total by (auto; lia). lia.
Qed.

Lemma span_eta_map (l : list span) :
  map (fun it => {| data := data it; size := size it |}) l = l.
Proof. induction l as [|[d s] l IH]; simpl; congruence. Qed.

(** ** Mirror construction *)

Lemma SetupGuestMappings_single (m : span) :
  span_wf m -> SetupGuestMappings [m] = Returns (spec_single m).
Proof.
  intros (Hd & Hs & He). assert (Hp : PAGE_SIZE = 4096) by reflexivity.
  unfold SetupGuestMappings, spec_single, span_end.
  rewrite AlignDown_page by lia.
  rewrite (wrap64_small (data m + size m)) by lia.
  rewrite AlignUp_page by lia.
  pose proof (page_floor_bounds (data m)).
  pose proof (page_ceil_bounds (data m + size m)).
  pose proof (page_floor_nonneg (data m) Hd).
  rewrite !wrap64_small by lia. reflexivity.
Qed.

Lemma SetupGuestMappings_several (frontMapping : span) (rest : list span) :
  rest <> [] ->
  SetupGuestMappings (frontMapping :: rest) =
  let alignedData := AlignDown (data frontMapping) PAGE_SIZE in
  let backMapping := last rest frontMapping in
  Returns {| alignedMirror :=
               CreateMirrors
                 ({| data := alignedData;
                     size := wrap64 (wrap64 (data frontMapping + size frontMapping)
                                     - alignedData) |}
                    :: internal_spans rest
                    ++ [{| data := data backMapping;
                           size := AlignUp (size backMapping) PAGE_SIZE |}]);
             mirror_offset := wrap64 (data frontMapping - alignedData);
             mirror_size :=
               wrap64 (internal_total (size frontMapping) rest + size backMapping) |}.
Proof. intros Hne. destruct rest; [congruence | reflexivity]. Qed.

(** The multi-region mirror as the code builds it: as [spec_multi], but the
    last span keeps its base and has its length rounded up. *)
Lemma SetupGuestMappings_multi (front : span) (internal : list span) (back : span) :
  Forall span_wf (front :: internal ++ [back]) ->
  total_size (front :: internal ++ [back]) < 2 ^ 64 ->
  SetupGuestMappings (front :: internal ++ [back]) =
  Returns {| alignedMirror :=
               CreateMirrors ({| data := page_floor (data front);
                                 size := span_end front - page_floor (data front) |}
                                :: internal
                                ++ [{| data := data back;
                                       size := page_ceil (size back) |}]);
             mirror_offset := data front - page_floor (data front);
             mirror_size := total_size (front :: internal ++ [back]) |}.
Proof.
  intros Hwf Hsum. assert (Hp : PAGE_SIZE = 4096) by reflexivity.
  pose proof (span_wf_nonneg _ Hwf) as Hnn.
  inversion Hwf as [|? ? (Hd & Hs & He) Hrest]; subst.
  inversion Hnn as [|? ? _ Hnnrest]; subst.
  apply Forall_app in Hrest as [_ Hback].
  inversion Hback as [|? ? (Hbd & Hbs & Hbe) _]; subst.
  apply Forall_app in Hnnrest as [Hnni _].
  rewrite SetupGuestMappings_several by (destruct internal; discriminate).
  unfold internal_spans, internal_total.
  rewrite removelast_last, last_last, span_eta_map.
  rewrite AlignDown_page by lia.
  pose proof (page_floor_bounds (data front)).
  pose proof (page_floor_nonneg (data front) Hd).
  unfold span_end.
  rewrite (wrap64_small (data front + size front)) by lia.
  rewrite AlignUp_page by lia.
  simpl total_size in *. rewrite total_size_app in *. simpl total_size in *.
  pose proof (total_size_nonneg internal Hnni).
  rewrite fold_wrap_total by (auto; lia).
  rewrite !wrap64_small by lia.
  do 2 f_equal. lia.
Qed.

(** C1 (amended). With regions inside the 64-bit address space: a single
    region is mirrored exactly as the specification words it (start aligned
    down, end aligned up, one mapping, the logical mirror being the original
    region inside it). For several regions one combined mapping is requested
    whose first span starts at the first region's start aligned down and runs
    to that region's true end, whose internal spans are the internal regions
    as they are, and whose last span keeps the last region's base and has its
    LENGTH rounded up to a page multiple; the logical mirror starts at the
    first region's true start and is as long as all regions together. The
    last span ends on the page boundary the specification asks for whenever
    the last region's base is page-aligned. *)
Theorem SetupGuestMappings_builds_mirror
  (front : span) (internal : list span) (back : span) :
  Forall span_wf (front :: internal ++ [back]) ->
  total_size (front :: internal ++ [back]) < 2 ^ 64 ->
  SetupGuestMappings [front] = Returns (spec_single front)
  /\ SetupGuestMappings (front :: internal ++ [back]) =
     Returns {| alignedMirror :=
                  CreateMirrors ({| data := page_floor (data front);
                                    size := span_end front - page_floor (data front) |}
                                   :: internal
                                   ++ [{| data := data back;
                                          size := page_ceil (size back) |}]);
                mirror_offset := data front - page_floor (data front);
                mirror_size := total_size (front :: internal ++ [back]) |}
  /\ (IsPageAligned (data back) ->
      SetupGuestMappings (front :: internal ++ [back]) =
      spec_SetupGuestMappings (front :: internal ++ [back])).
Proof.
  intros Hwf Hsum. split; [|split].
  - apply SetupGuestMappings_single. now inversion Hwf.
  - now apply SetupGuestMappings_multi.
  - intros Hal. rewrite SetupGuestMappings_multi by assumption.
    unfold spec_SetupGuestMappings.
    destruct (internal ++ [back]) as [|x rest'] eqn:Heq.
    { destruct internal; discriminate. }
    rewrite <- Heq. rewrite removelast_last, last_last.
    unfold spec_multi, span_end. rewrite page_ceil_shift by assumption.
    replace (data back + page_ceil (size back) - data back)
      with (page_ceil (size back)) by lia.
    reflexivity.
Qed.

Lemma SetupGuestMappings_builds_mirror_witness :
  SetupGuestMappings
    ({| data := 0x1234; size := 0xdcc |}
       :: [{| data := 0x5000; size := 0x1000 |}] ++ [{| data := 0x8000; size := 0x10 |}])
  = spec_SetupGuestMappings
      ({| data := 0x1234; size := 0xdcc |}
         :: [{| data := 0x5000; size := 0x1000 |}] ++ [{| data := 0x8000; size := 0x10 |}]).
Proof.
  apply (SetupGuestMappings_builds_mirror
           {| data := 0x1234; size := 0xdcc |}
           [{| data := 0x5000; size := 0x1000 |}]
           {| data := 0x8000; size := 0x10 |}).
  - repeat constructor; simpl; lia.
  - simpl; lia.
  - reflexivity.
Defined.

(** C1, as stated, fails: two well-formed, disjoint regions whose second base
    is not page-aligned. The code requests the last span [0x2800, 0x3800),
    whose end is no page boundary; aligning the last region's end up would
    give [0x2800, 0x3000). *)
Lemma SetupGuestMappings_last_end_counterexample :
  let ms := [{| data := 0x1000; size := 0x1000 |}; {| data := 0x2800; size := 0x100 |}] in
  Forall span_wf ms
  /\ non_overlapping ms
  /\ SetupGuestMappings ms =
     Returns {| alignedMirror :=
                  CreateMirrors [{| data := 0x1000; size := 0x1000 |};
                                 {| data := 0x2800; size := 0x1000 |}];
                mirror_offset := 0; mirror_size := 0x1100 |}
  /\ spec_SetupGuestMappings ms =
     Returns {| alignedMirror :=
                  CreateMirrors [{| data := 0x1000; size := 0x1000 |};
                                 {| data := 0x2800; size := 0x800 |}];
                mirror_offset := 0; mirror_size := 0x1100 |}
  /\ SetupGuestMappings ms <> spec_SetupGuestMappings ms.
Proof.
  cbv zeta. split; [|split; [|split; [|split]]].
  - repeat constructor; simpl; lia.
  - simpl. repeat constructor. intros a; unfold in_span; simpl; lia.
  - reflexivity.
  - reflexivity.
  - intros H. vm_compute in H. discriminate H.
Qed.

(** ** Addresses behind the mirror *)

Lemma spans_address_locate (l : list span) (o : Z) :
  Forall (fun s => 0 <= size s) l -> 0 <= o < total_size l ->
  exists k r, nth_error l k = Some r
              /\ prefix_size k l <= o < prefix_size k l + size r
              /\ spans_address l o = Some (data r + (o - prefix_size k l)).
Proof.
  intros Hl. revert o. induction Hl as [|s l Hs Hl IH]; intros o Ho; simpl in *.
  - lia.
  - destruct (o <? size s) eqn:Hlt.
    + apply Z.ltb_lt in Hlt. exists O, s. unfold prefix_size. simpl.
      repeat split; try lia. apply f_equal; lia.
    + apply Z.ltb_ge in Hlt.
      destruct (IH (o - size s) ltac:(lia)) as (k & r & Hk & Hr & Ha).
      exists (S k), r. unfold prefix_size in *. simpl.
      repeat split; try assumption; try lia.
      rewrite Ha. apply f_equal; lia.
Qed.

Lemma spans_address_last_grown (internal : list span) (back : span) (sz j : Z) :
  Forall (fun s => 0 <= size s) internal ->
  size back <= sz -> j < total_size (internal ++ [back]) ->
  spans_address (internal ++ [{| data := data back; size := sz |}]) j
  = spans_address (internal ++ [back]) j.
Proof.
  intros Hl Hsz. revert j. induction Hl as [|s l Hs Hl IH]; intros j Hj; simpl in *.
  - replace (j <? sz) with true by (symmetry; apply Z.ltb_lt; lia).
    replace (j <? size back) with true by (symmetry; apply Z.ltb_lt; lia).
    reflexivity.
  - destruct (j <? size s) eqn:Hlt; [reflexivity|].
    apply Z.ltb_ge in Hlt. apply IH. lia.
Qed.

(** Byte [o] of the logical mirror is byte [o] of the concatenated regions. *)
Lemma mirror_address_flat (guest : list span) (m : GuestMirror) (o : Z) :
  Forall span_wf guest -> total_size guest < 2 ^ 64 ->
  SetupGuestMappings guest = Returns m ->
  0 <= o < total_size guest ->
  mirror_size m = total_size guest
  /\ mirror_address m o = spans_address guest o.
Proof.
  intros Hwf Hsum Hm Ho.
  destruct guest as [|front rest]; [discriminate|].
  destruct (exists_last (l := front :: rest) ltac:(discriminate)) as (l' & back & Heq).
  destruct l' as [|front' internal].
  - (* one region *)
    simpl in Heq. injection Heq as -> ->.
    rewrite SetupGuestMappings_single in Hm by now inversion Hwf.
    injection Hm as <-. inversion Hwf as [|? ? (Hd & Hs & He) _]; subst.
    simpl in Ho. unfold mirror_address, spec_single, span_end. simpl.
    split; [lia|].
    replace (0 <=? o) with true by (symmetry; apply Z.leb_le; lia).
    pose proof (page_floor_bounds (data back)).
    pose proof (page_ceil_bounds (data back + size back)).
    replace (data back - page_floor (data back) + o
             <? page_ceil (data back + size back) - page_floor (data back)) with true
      by (symmetry; apply Z.ltb_lt; lia).
    replace (o <? size back) with true by (symmetry; apply Z.ltb_lt; lia).
    apply f_equal; lia.
  - (* several regions *)
    simpl in Heq. injection Heq as <- ->.
    rewrite SetupGuestMappings_multi in Hm by assumption.
    injection Hm as <-.
    pose proof (span_wf_nonneg _ Hwf) as Hnn.
    inversion Hwf as [|? ? (Hd & Hs & He) _]; subst.
    inversion Hnn as [|? ? _ Hnnrest]; subst.
    pose proof Hnnrest as Hnnrest'.
    apply Forall_app in Hnnrest as [Hnni _].
    unfold mirror_address. cbn [mirror_size mirror_offset alignedMirror requested_spans].
    split; [reflexivity|].
    rewrite total_size_cons in *.
    replace (0 <=? o) with true by (symmetry; apply Z.leb_le; lia).
    pose proof (page_floor_bounds (data front)).
    unfold span_end. cbn [spans_address data size].
    destruct (o <? size front) eqn:Hlt.
    + apply Z.ltb_lt in Hlt.
      replace (data front - page_floor (data front) + o
               <? data front + size front - page_floor (data front)) with true
        by (symmetry; apply Z.ltb_lt; lia).
      apply f_equal; lia.
    + apply Z.ltb_ge in Hlt.
      replace (data front - page_floor (data front) + o
               <? data front + size front - page_floor (data front)) with false
        by (symmetry; apply Z.ltb_ge; lia).
      replace (data front - page_floor (data front) + o
               - (data front + size front - page_floor (data front)))
        with (o - size front) by lia.
      apply spans_address_last_grown; [assumption| |lia].
      pose proof (page_ceil_bounds (size back)). lia.
Qed.

Lemma spans_address_in_span (l : list span) (j a : Z) :
  0 <= j -> spans_address l j = Some a -> Exists (fun t => in_span t a) l.
Proof.
  revert j. induction l as [|s l IH]; intros j Hj H; simpl in H; [discriminate|].
  destruct (j <? size s) eqn:Hlt.
  - apply Z.ltb_lt in Hlt. injection H as <-. left. unfold in_span. lia.
  - apply Z.ltb_ge in Hlt. right. apply (IH (j - size s)); [lia|assumption].
Qed.

Lemma spans_address_inj (l : list span) (o1 o2 a : Z) :
  non_overlapping l -> 0 <= o1 -> 0 <= o2 ->
  spans_address l o1 = Some a -> spans_address l o2 = Some a -> o1 = o2.
Proof.
  revert o1 o2. induction l as [|s l IH]; intros o1 o2 Hno H1 H2 Ha1 Ha2;
    simpl in *; [discriminate|].
  destruct Hno as [Hs Hno].
  assert (Hcross : forall p q, 0 <= p -> p < size s -> size s <= q ->
                               spans_address l (q - size s) = Some (data s + p) -> False).
  { intros p q Hp Hlt Hge Hq.
    apply spans_address_in_span in Hq; [|lia].
    apply Exists_exists in Hq as (t & Ht & Hin).
    rewrite Forall_forall in Hs. apply (Hs t Ht (data s + p)); [|assumption].
    unfold in_span. lia. }
  destruct (o1 <? size s) eqn:L1; destruct (o2 <? size s) eqn:L2;
    try apply Z.ltb_lt in L1; try apply Z.ltb_lt in L2;
    try apply Z.ltb_ge in L1; try apply Z.ltb_ge in L2.
  - injection Ha1 as <-. injection Ha2 as E. lia.
  - injection Ha1 as <-. exfalso. apply (Hcross o1 o2); assumption.
  - injection Ha2 as <-. exfalso. apply (Hcross o2 o1); assumption.
  - assert (o1 - size s = o2 - size s) by (apply IH; auto; lia). lia.
Qed.

(** ** Writes through the mirror *)

Lemma mirror_address_range (m : GuestMirror) (o a : Z) :
  mirror_address m o = Some a -> 0 <= o.
Proof.
  unfold mirror_address.
  destruct (0 <=? o) eqn:Hc; [|discriminate].
  intros _. now apply Z.leb_le.
Qed.




Lemma write_bytes_untouched (m : GuestMirror) (bytes : list Byte.byte) :
  forall o g g' a,
    write_bytes m o bytes g = Returns g' ->
    (forall i, 0 <= i < Z.of_nat (length bytes) -> mirror_address m (o + i) <> Some a) ->
    g' a = g a.
Proof.
  induction bytes as [|b rest IH]; intros o g g' a H Hout; simpl in *.
  - now injection H as <-.
  - destruct (mirror_address m o) as [a0|] eqn:Ha; [|discriminate].
    rewrite (IH _ _ _ a H).
    + unfold store. destruct (a =? a0) eqn:E; [|reflexivity].
      apply Z.eqb_eq in E. subst a0. exfalso.
      apply (Hout 0); [lia|]. now rewrite Z.add_0_r.
    + intros i Hi. replace (o + 1 + i) with (o + (i + 1)) by lia.
      apply Hout. lia.
Qed.


Section Construction.

Variable gpu_work : CycleId -> mem -> mem.

Lemma Buffer_new_fields (guest : list span) (memory0 backing0 : mem) (s : Buffer) :
  Buffer_new gpu_work guest memory0 backing0 = Returns s ->
  exists m, SetupGuestMappings guest = Returns m
            /\ mirror s = Some m
            /\ buffer_size s = BufferSize guest
            /\ mappings s = guest
            /\ memory s = memory0
            /\ cycle s = None
            /\ attached s = []
            /\ views s = [] /\ heap s = [].
Proof.
  unfold Buffer_new. destruct (SetupGuestMappings guest) as [m| |]; try discriminate.
  intros H. injection H as <-. exists m. repeat split; reflexivity.
Qed.

Lemma Buffer_new_mirror (guest : list span) (memory0 backing0 : mem) (s : Buffer) :
  Forall span_wf guest -> total_size guest < 2 ^ 64 ->
  Buffer_new gpu_work guest memory0 backing0 = Returns s ->
  exists m, mirror s = Some m
            /\ mirror_size m = total_size guest
            /\ buffer_size s = total_size guest
            /\ memory s = memory0
            /\ forall o, 0 <= o < total_size guest ->
                         mirror_address m o = spans_address guest o.
Proof.
  intros Hwf Hsum Hnew.
  destruct (Buffer_new_fields _ _ _ _ Hnew) as (m & Hm & Hmir & Hsz & _ & Hmem & _).
  exists m. split; [assumption|].
  assert (Hms : mirror_size m = total_size guest).
  { destruct guest as [|front rest]; [discriminate|].
    destruct (exists_last (l := front :: rest) ltac:(discriminate)) as (l' & back & Heq).
    destruct l' as [|f' internal]; simpl in Heq.
    - injection Heq as -> ->.
      rewrite SetupGuestMappings_single in Hm by now inversion Hwf.
      injection Hm as <-. simpl. lia.
    - injection Heq as <- ->.
      rewrite SetupGuestMappings_multi in Hm by assumption.
      now injection Hm as <-. }
  repeat split; try assumption.
  - rewrite Hsz. apply BufferSize_total; [now apply span_wf_nonneg | assumption].
  - intros o Ho. now apply (mirror_address_flat guest m o).
Qed.

End Construction.

Lemma write_bytes_app (m : GuestMirror) (l1 l2 : list Byte.byte) :
  forall o g,
    write_bytes m o (l1 ++ l2) g =
    match write_bytes m o l1 g with
    | Returns g1 => write_bytes m (o + Z.of_nat (length l1)) l2 g1
    | Throws e => Throws e
    | Undefined => Undefined
    end.
Proof.
  induction l1 as [|b l1 IH]; intros o g.
  - simpl. now rewrite Z.add_0_r.
  - cbn [app write_bytes length]. destruct (mirror_address m o) as [a|]; [|reflexivity].
    rewrite IH. replace (o + 1 + Z.of_nat (length l1)) with (o + Z.of_nat (S (length l1)))
      by lia. reflexivity.
Qed.



Section Writes.

Variable gpu_work : CycleId -> mem -> mem.

(** C6. For regions inside the 64-bit address space whose lengths sum to a
    64-bit value, the constructed Buffer's size is the sum of the lengths,
    and a one-byte Write at any flat offset [o] below the size changes
    exactly the byte at local offset [o - sum(l0..l(k-1))] of the region
    [k] whose cumulative-length interval contains [o]. *)
Theorem Write_lands_in_region
  (guest : list span) (memory0 backing0 : mem) (s : Buffer) :
  Forall span_wf guest -> total_size guest < 2 ^ 64 ->
  Buffer_new gpu_work guest memory0 backing0 = Returns s ->
  buffer_size s = total_size guest
  /\ forall o, 0 <= o < buffer_size s ->
       exists k r,
         nth_error guest k = Some r
         /\ prefix_size k guest <= o < prefix_size k guest + size r
         /\ forall b, exists s',
              Write [b] o s = Returns s'
              /\ memory s' (data r + (o - prefix_size k guest)) = b
              /\ forall a, a <> data r + (o - prefix_size k guest) ->
                           memory s' a = memory s a.
Proof.
  intros Hwf Hsum Hnew.
  destruct (Buffer_new_mirror gpu_work _ _ _ _ Hwf Hsum Hnew)
    as (m & Hmir & Hms & Hsz & Hmem & Haddr).
  split; [assumption|].
  intros o Ho. rewrite Hsz in Ho.
  destruct (spans_address_locate guest o (span_wf_nonneg _ Hwf) Ho)
    as (k & r & Hk & Hr & Ha).
  exists k, r. repeat split; try assumption; try lia.
  intros b. unfold Write. rewrite Hmir. simpl.
  rewrite (Haddr o Ho), Ha.
  eexists. split; [reflexivity|]. simpl. unfold store. split.
  - now rewrite Z.eqb_refl.
  - intros a Hne. apply Z.eqb_neq in Hne. now rewrite Hne.
Qed.


End Writes.

Lemma two_regions_wf : Forall span_wf two_regions.
Proof. repeat constructor; simpl; lia. Qed.

Lemma two_regions_fit : total_size two_regions < 2 ^ 64.
Proof. simpl; lia. Qed.

Lemma fresh_constructed :
  Buffer_new idle_gpu two_regions zeroed zeroed = Returns fresh.
Proof. reflexivity. Qed.

Lemma Write_lands_in_region_witness :
  buffer_size fresh = total_size two_regions
  /\ exists k r,
       nth_error two_regions k = Some r
       /\ prefix_size k two_regions <= 0x25 < prefix_size k two_regions + size r
       /\ forall b, exists s',
            Write [b] 0x25 fresh = Returns s'
            /\ memory s' (data r + (0x25 - prefix_size k two_regions)) = b
            /\ forall a, a <> data r + (0x25 - prefix_size k two_regions) ->
                         memory s' a = memory fresh a.
Proof.
  destruct (Write_lands_in_region idle_gpu two_regions zeroed zeroed fresh
              two_regions_wf two_regions_fit fresh_constructed) as [Hsize Hland].
  split; [exact Hsize|].
  apply Hland. rewrite Hsize. simpl. lia.
Defined.



(** ** Copies between guest regions and the host backing *)

Lemma copy_to_host_below (ms : list span) :
  forall host guest backing a,
    Forall (fun m => 0 <= size m) ms -> a < host ->
    copy_to_host ms host guest backing a = backing a.
Proof.
  induction ms as [|m rest IH]; intros host guest backing a Hnn Ha; simpl; [reflexivity|].
  inversion Hnn as [|? ? Hm Hrest]; subst.
  unfold size_bytes. rewrite IH by (auto; lia).
  unfold memcpy.
  replace ((host <=? a) && (a <? host + size m)) with false; [reflexivity|].
  symmetry. apply andb_false_iff. left. apply Z.leb_gt. lia.
Qed.

Lemma copy_to_host_agrees (ms : list span) :
  forall host guest backing,
    Forall (fun m => 0 <= size m) ms ->
    agrees ms host guest (copy_to_host ms host guest backing).
Proof.
  induction ms as [|m rest IH]; intros host guest backing Hnn; simpl; [exact I|].
  inversion Hnn as [|? ? Hm Hrest]; subst. unfold size_bytes. split.
  - intros i Hi. rewrite copy_to_host_below by (auto; lia).
    unfold memcpy.
    replace ((host <=? host + i) && (host + i <? host + size m)) with true.
    + f_equal. lia.
    + symmetry. apply andb_true_iff. split; [apply Z.leb_le|apply Z.ltb_lt]; lia.
  - now apply IH.
Qed.

Lemma copy_to_guest_same (ms : list span) :
  forall host backing guest guest0,
    agrees ms host guest0 backing ->
    (forall a, guest a = guest0 a) ->
    forall a, copy_to_guest ms host backing guest a = guest0 a.
Proof.
  induction ms as [|m rest IH]; intros host backing guest guest0 Hag Heq a; simpl.
  - apply Heq.
  - destruct Hag as [Hm Hrest]. unfold size_bytes.
    apply IH; [assumption|]. intros x. unfold memcpy.
    destruct ((data m <=? x) && (x <? data m + size m)) eqn:Hc; [|apply Heq].
    apply andb_true_iff in Hc as [H0 H1].
    apply Z.leb_le in H0. apply Z.ltb_lt in H1.
    rewrite Hm by lia. f_equal. lia.
Qed.

Lemma copy_to_guest_outside (ms : list span) :
  forall host backing guest a,
    Forall (fun t => ~ in_span t a) ms ->
    copy_to_guest ms host backing guest a = guest a.
Proof.
  induction ms as [|m rest IH]; intros host backing guest a Hout; simpl; [reflexivity|].
  inversion Hout as [|? ? Hm Hrest]; subst.
  rewrite IH by assumption. unfold memcpy, size_bytes.
  destruct ((data m <=? a) && (a <? data m + size m)) eqn:Hc; [|reflexivity].
  apply andb_true_iff in Hc as [H0 H1].
  apply Z.leb_le in H0. apply Z.ltb_lt in H1.
  exfalso. apply Hm. unfold in_span. lia.
Qed.

Lemma copy_to_guest_agrees (ms : list span) :
  forall host backing guest,
    non_overlapping ms ->
    agrees ms host (copy_to_guest ms host backing guest) backing.
Proof.
  induction ms as [|m rest IH]; intros host backing guest Hno; simpl; [exact I|].
  destruct Hno as [Hm Hrest]. unfold size_bytes. split.
  - intros i Hi. rewrite copy_to_guest_outside.
    + unfold memcpy.
      replace ((data m <=? data m + i) && (data m + i <? data m + size m)) with true.
      * f_equal. lia.
      * symmetry. apply andb_true_iff. split; [apply Z.leb_le|apply Z.ltb_lt]; lia.
    + eapply Forall_impl; [|exact Hm]. intros t Ht. apply Ht. unfold in_span. lia.
  - now apply IH.
Qed.

(** ** Fences *)

Section FenceFacts.

Variable gpu_work : CycleId -> mem -> mem.

Local Abbreviation complete := (complete gpu_work).
Local Abbreviation WaitOnFence := (WaitOnFence gpu_work).
Local Abbreviation SynchronizeHost := (SynchronizeHost gpu_work).
Local Abbreviation SynchronizeGuest := (SynchronizeGuest gpu_work).
Local Abbreviation SynchronizeHostWithCycle := (SynchronizeHostWithCycle gpu_work).
Local Abbreviation SynchronizeGuestWithCycle := (SynchronizeGuestWithCycle gpu_work).

Lemma destroy_dependencies_fields (n : nat) :
  forall s,
    attached (destroy_dependencies n s) = attached s
    /\ mappings (destroy_dependencies n s) = mappings s
    /\ mirror (destroy_dependencies n s) = mirror s
    /\ backing (destroy_dependencies n s) = backing s
    /\ cycle (destroy_dependencies n s) = match n with O => cycle s | S _ => None end
    /\ trace (destroy_dependencies n s) = trace s ++ action_events (cycle s) n.
Proof.
  induction n as [|n IH]; intros s.
  - simpl. rewrite app_nil_r. repeat split.
  - cbn [destroy_dependencies].
    destruct (IH (BufferGuestSync_destroy s)) as (Ha & Hm & Hmi & Hb & Hc & Ht).
    rewrite Ha, Hm, Hmi, Hb, Hc, Ht.
    assert (Hidle : cycle (BufferGuestSync_destroy s) = None).
    { unfold BufferGuestSync_destroy, WaitOnFence_completed.
      destruct (cycle s) eqn:E; simpl; [reflexivity|exact E]. }
    rewrite Hidle.
    assert (Hcopies : action_events None n = repeat EvCopyToGuest n)
      by (destruct n; reflexivity).
    rewrite Hcopies.
    unfold BufferGuestSync_destroy, WaitOnFence_completed, action_events.
    destruct (cycle s); simpl; rewrite <- !app_assoc; simpl;
      repeat split; try reflexivity; now destruct n.
Qed.

Lemma complete_fields (c : CycleId) (s : Buffer) :
  attached (complete c s) = filter (fun x => negb (Nat.eqb x c)) (attached s)
  /\ mappings (complete c s) = mappings s
  /\ mirror (complete c s) = mirror s
  /\ backing (complete c s) = gpu_work c (backing s)
  /\ cycle (complete c s)
     = match count_occ Nat.eq_dec (attached s) c with O => cycle s | S _ => None end
  /\ trace (complete c s)
     = trace s ++ action_events (cycle s) (count_occ Nat.eq_dec (attached s) c).
Proof.
  unfold complete. cbv zeta.
  match goal with
  | |- context [destroy_dependencies ?n ?x] =>
      destruct (destroy_dependencies_fields n x) as (Ha & Hm & Hmi & Hb & Hc & Ht)
  end.
  rewrite Ha, Hm, Hmi, Hb, Hc, Ht. repeat split.
Qed.

Lemma WaitOnFence_fields (s : Buffer) :
  mappings (WaitOnFence s) = mappings s
  /\ mirror (WaitOnFence s) = mirror s
  /\ cycle (WaitOnFence s) = None
  /\ trace (WaitOnFence s) = trace s ++ wait_events s.
Proof.
  unfold WaitOnFence, wait_events, FenceCycle_Wait.
  destruct (cycle s) as [c|] eqn:Hc.
  - destruct (complete_fields c (emit (EvWait c) s)) as (_ & Hm & Hmi & _ & _ & Ht).
    simpl. rewrite Hm, Hmi, Ht.
    change (cycle (emit (EvWait c) s)) with (cycle s). rewrite Hc.
    cbn [emit trace attached mappings mirror]. rewrite <- app_assoc. repeat split.
  - rewrite app_nil_r. repeat split. assumption.
Qed.

Lemma WaitOnFence_idle (s : Buffer) : cycle s = None -> WaitOnFence s = s.
Proof. intros H. unfold WaitOnFence. now rewrite H. Qed.

Lemma cycle_eqb_eq (a b : option CycleId) : cycle_eqb a b = true <-> a = b.
Proof.
  destruct a as [x|], b as [y|]; simpl; split; intros H;
    try discriminate; try reflexivity.
  - apply Nat.eqb_eq in H. now subst.
  - injection H as ->. apply Nat.eqb_refl.
Qed.

Lemma filter_others_nil (c : CycleId) (l : list CycleId) :
  (forall x, In x l -> x = c) -> filter (fun x => negb (Nat.eqb x c)) l = [].
Proof.
  induction l as [|y l IH]; intros H; simpl; [reflexivity|].
  rewrite (H y (or_introl eq_refl)), Nat.eqb_refl. simpl.
  apply IH. intros x Hx. apply H. now right.
Qed.

Lemma complete_keeps_pending (c : CycleId) (s : Buffer) :
  on_pending_cycle s -> on_pending_cycle (complete c s).
Proof.
  intros Hinv x Hx.
  destruct (complete_fields c s) as (Ha & _ & _ & _ & Hc & _).
  rewrite Ha in Hx. rewrite Hc.
  destruct (count_occ Nat.eq_dec (attached s) c) eqn:Hn.
  - apply Hinv. now apply filter_In in Hx as [Hx _].
  - exfalso.
    assert (Hin : In c (attached s)).
    { apply (count_occ_In Nat.eq_dec). lia. }
    pose proof (Hinv c Hin) as Hcyc.
    rewrite filter_others_nil in Hx; [contradiction|].
    intros y Hy. pose proof (Hinv y Hy) as Hy'. congruence.
Qed.

Lemma WaitOnFence_discharges (s : Buffer) :
  on_pending_cycle s ->
  attached (WaitOnFence s) = [] /\ cycle (WaitOnFence s) = None.
Proof.
  intros Hinv. unfold WaitOnFence, FenceCycle_Wait.
  destruct (cycle s) as [c|] eqn:Hc.
  - destruct (complete_fields c (emit (EvWait c) s)) as (Ha & _).
    simpl. rewrite Ha. simpl. split; [|reflexivity].
    apply filter_others_nil. intros x Hx. pose proof (Hinv x Hx). congruence.
  - split; [|assumption].
    destruct (attached s) as [|x l] eqn:Hl; [reflexivity|].
    pose proof (Hinv x) as Hx. rewrite Hl in Hx.
    specialize (Hx (or_introl eq_refl)). congruence.
Qed.

Lemma perform_keeps_pending (op : operation) (s : Buffer) :
  on_pending_cycle s -> on_pending_cycle (perform gpu_work op s).
Proof.
  intros Hinv.
  destruct (WaitOnFence_discharges s Hinv) as [Hw Hwc].
  assert (Hidle : on_pending_cycle (WaitOnFence s)).
  { intros x Hx. rewrite Hw in Hx. contradiction. }
  destruct op as [| |pCycle| |pCycle|c]; simpl.
  - exact Hidle.
  - exact Hidle.
  - unfold Sync.SynchronizeHostWithCycle.
    destruct (negb (cycle_eqb pCycle (cycle s))); [exact Hidle|exact Hinv].
  - exact Hidle.
  - unfold Sync.SynchronizeGuestWithCycle.
    destruct (negb (cycle_eqb (Some pCycle) (cycle s))) eqn:Hd; intros x Hx.
    + simpl in Hx. rewrite Hw in Hx. simpl in Hx. destruct Hx as [->|[]]. reflexivity.
    + apply negb_false_iff, cycle_eqb_eq in Hd.
      simpl in Hx. apply in_app_iff in Hx as [Hx|[->|[]]]; [|reflexivity].
      pose proof (Hinv x Hx) as Hp. simpl. congruence.
  - now apply complete_keeps_pending.
Qed.

Lemma perform_all_keeps_pending (ops : list operation) :
  forall s, on_pending_cycle s -> on_pending_cycle (perform_all gpu_work ops s).
Proof.
  induction ops as [|op ops IH]; intros s Hinv; simpl; [assumption|].
  apply IH. now apply perform_keeps_pending.
Qed.

End FenceFacts.

Section Synchronisation.

Variable gpu_work : CycleId -> mem -> mem.

Local Abbreviation WaitOnFence := (WaitOnFence gpu_work).
Local Abbreviation SynchronizeHost := (SynchronizeHost gpu_work).
Local Abbreviation SynchronizeGuest := (SynchronizeGuest gpu_work).
Local Abbreviation SynchronizeHostWithCycle := (SynchronizeHostWithCycle gpu_work).
Local Abbreviation SynchronizeGuestWithCycle := (SynchronizeGuestWithCycle gpu_work).
Local Abbreviation Buffer_destroy := (Buffer_destroy gpu_work).

(** C2 (amended). On a Buffer reached by any sequence of operations from
    one without deferred updates, SynchronizeGuestWithCycle(cycle) waits on
    the pending fence exactly when it is a different cycle, copies nothing
    to the guest itself, attaches one deferred guest copy to [cycle] and
    leaves [cycle] pending. Before and after the call every deferred copy
    not yet run hangs on the one pending cycle; installing a different
    cycle leaves exactly one. (A repeated call with the pending cycle adds
    a further deferred copy to that same cycle.) *)
Theorem SynchronizeGuestWithCycle_defers
  (pCycle : CycleId) (s0 : Buffer) (ops : list operation) :
  attached s0 = [] ->
  let s := perform_all gpu_work ops s0 in
  let s' := SynchronizeGuestWithCycle pCycle s in
  (exists waited,
      (cycle s = Some pCycle -> waited = s)
      /\ (cycle s <> Some pCycle -> waited = WaitOnFence s)
      /\ trace s' = trace waited ++ [EvAttach pCycle]
      /\ memory s' = memory waited
      /\ backing s' = backing waited
      /\ attached s' = attached waited ++ [pCycle])
  /\ trace (WaitOnFence s) = trace s ++ wait_events s
  /\ cycle s' = Some pCycle
  /\ on_pending_cycle s
  /\ on_pending_cycle s'
  /\ (cycle s <> Some pCycle -> attached s' = [pCycle]).
Proof.
  intros Hfresh s s'.
  assert (Hinv : on_pending_cycle s).
  { apply perform_all_keeps_pending. intros c Hc. rewrite Hfresh in Hc. contradiction. }
  split; [|split; [|split; [|split; [|split]]]].
  - exists (if negb (cycle_eqb (Some pCycle) (cycle s)) then WaitOnFence s else s).
    split; [|split].
    + intros Hc. rewrite Hc. simpl. now rewrite Nat.eqb_refl.
    + intros Hc. destruct (cycle_eqb (Some pCycle) (cycle s)) eqn:E; [|reflexivity].
      apply cycle_eqb_eq in E. congruence.
    + repeat split.
  - apply WaitOnFence_fields.
  - reflexivity.
  - exact Hinv.
  - apply (perform_keeps_pending gpu_work (OpSynchronizeGuestWithCycle pCycle) s Hinv).
  - intros Hc. subst s'. unfold Sync.SynchronizeGuestWithCycle.
    destruct (cycle_eqb (Some pCycle) (cycle s)) eqn:E.
    + apply cycle_eqb_eq in E. congruence.
    + simpl. destruct (WaitOnFence_discharges gpu_work s Hinv) as [-> _]. reflexivity.
Qed.

(** C4. With no fence pending, SynchronizeHost() immediately followed by
    SynchronizeGuest() leaves every byte of guest memory as it was; with a
    fence pending, as the wait of SynchronizeHost left it. (Holds for
    overlapping regions too.) *)
Theorem SynchronizeHost_SynchronizeGuest_roundtrip (s : Buffer) :
  Forall (fun m => 0 <= size m) (mappings s) ->
  (forall a, memory (SynchronizeGuest (SynchronizeHost s)) a = memory (WaitOnFence s) a)
  /\ (cycle s = None ->
      forall a, memory (SynchronizeGuest (SynchronizeHost s)) a = memory s a).
Proof.
  intros Hnn.
  assert (Hgen : forall a, memory (SynchronizeGuest (SynchronizeHost s)) a
                           = memory (WaitOnFence s) a).
  { intros a. unfold Sync.SynchronizeGuest, Sync.SynchronizeHost.
    destruct (WaitOnFence_fields gpu_work s) as (Hm & _ & Hc & _).
    rewrite (WaitOnFence_idle gpu_work (guest_to_host (WaitOnFence s))) by exact Hc.
    simpl. apply copy_to_guest_same; [|reflexivity].
    apply copy_to_host_agrees. now rewrite Hm. }
  split; [exact Hgen|].
  intros Hidle a. rewrite Hgen. now rewrite (WaitOnFence_idle gpu_work s Hidle).
Qed.

(** C5. SynchronizeHostWithCycle(cycle) is SynchronizeHost() when [cycle]
    is not the pending cycle, and the bare guest-to-host copy, without any
    wait, when it is; SynchronizeHost() always goes through WaitOnFence,
    which waits on whatever cycle is pending. After either call the host
    backing holds every region's bytes, in region order. *)
Theorem SynchronizeHostWithCycle_like_SynchronizeHost
  (pCycle : option CycleId) (s : Buffer) :
  Forall (fun m => 0 <= size m) (mappings s) ->
  (pCycle <> cycle s -> SynchronizeHostWithCycle pCycle s = SynchronizeHost s)
  /\ (pCycle = cycle s ->
      SynchronizeHostWithCycle pCycle s = guest_to_host s
      /\ trace (SynchronizeHostWithCycle pCycle s) = trace s ++ [EvCopyToHost])
  /\ SynchronizeHost s = guest_to_host (WaitOnFence s)
  /\ trace (SynchronizeHost s) = trace s ++ wait_events s ++ [EvCopyToHost]
  /\ agrees (mappings s) 0
            (memory (SynchronizeHostWithCycle pCycle s))
            (backing (SynchronizeHostWithCycle pCycle s))
  /\ agrees (mappings s) 0
            (memory (SynchronizeHost s)) (backing (SynchronizeHost s)).
Proof.
  intros Hnn.
  destruct (WaitOnFence_fields gpu_work s) as (Hm & _ & _ & Ht).
  assert (Hcopy : forall x, mappings x = mappings s ->
                            agrees (mappings s) 0 (memory (guest_to_host x))
                                   (backing (guest_to_host x))).
  { intros x Hx. simpl. rewrite Hx. now apply copy_to_host_agrees. }
  split; [|split; [|split; [|split; [|split]]]].
  - intros Hne. unfold Sync.SynchronizeHostWithCycle, Sync.SynchronizeHost.
    destruct (cycle_eqb pCycle (cycle s)) eqn:E; [|reflexivity].
    apply cycle_eqb_eq in E. contradiction.
  - intros Heq. unfold Sync.SynchronizeHostWithCycle.
    apply cycle_eqb_eq in Heq. rewrite Heq. simpl. split; reflexivity.
  - reflexivity.
  - unfold Sync.SynchronizeHost. simpl. rewrite Ht. now rewrite app_assoc.
  - unfold Sync.SynchronizeHostWithCycle.
    destruct (negb (cycle_eqb pCycle (cycle s))); apply Hcopy; auto.
  - apply Hcopy. exact Hm.
Qed.

(** C8. Destroying a Buffer takes its lock, waits for the pending fence
    (so what the GPU wrote under that cycle is in the host backing), copies
    the backing to the guest regions, then unmaps the mirror if there is
    one, and unlocks. With disjoint regions every guest region then equals
    its part of the final host backing, GPU writes included. *)
Theorem Buffer_destroy_synchronizes_then_unmaps (s : Buffer) :
  Forall (fun m => 0 <= size m) (mappings s) ->
  non_overlapping (mappings s) ->
  let s' := Buffer_destroy s in
  agrees (mappings s) 0 (memory s') (backing s')
  /\ backing s' = match cycle s with
                  | Some c => gpu_work c (backing s)
                  | None => backing s
                  end
  /\ cycle s' = None
  /\ trace s' = trace s ++ [EvLock] ++ wait_events s ++ [EvCopyToGuest]
                ++ match mirror s with
                   | Some m => [EvMunmap (alignedMirror m)]
                   | None => []
                   end
                ++ [EvUnlock].
Proof.
  intros Hnn Hno s'. subst s'. unfold Sync.Buffer_destroy, SynchronizeGuest_forced.
  cbv zeta.
  destruct (WaitOnFence_fields gpu_work (emit EvLock s)) as (Hm & Hmi & Hc & Ht).
  assert (Hb : backing (WaitOnFence (emit EvLock s))
               = match cycle s with
                 | Some c => gpu_work c (backing s)
                 | None => backing s
                 end).
  { unfold Sync.WaitOnFence. simpl. destruct (cycle s) as [c|]; [|reflexivity].
    unfold FenceCycle_Wait.
    destruct (complete_fields gpu_work c (emit (EvWait c) (emit EvLock s)))
      as (_ & _ & _ & Hb1 & _).
    change (backing (complete gpu_work c (emit (EvWait c) (emit EvLock s)))
            = gpu_work c (backing s)).
    now rewrite Hb1. }
  assert (Hmir : mirror (host_to_guest (WaitOnFence (emit EvLock s))) = mirror s).
  { simpl. exact Hmi. }
  rewrite Hmir.
  assert (Hag : agrees (mappings s) 0
                       (memory (host_to_guest (WaitOnFence (emit EvLock s))))
                       (backing (host_to_guest (WaitOnFence (emit EvLock s))))).
  { simpl. rewrite Hm. simpl. now apply copy_to_guest_agrees. }
  assert (Hev : wait_events (emit EvLock s) = wait_events s) by reflexivity.
  destruct (mirror s) as [m|]; simpl; simpl in Hag;
    (split; [exact Hag|split; [exact Hb|split; [exact Hc|]]]);
    rewrite Ht, Hev; simpl; rewrite <- !app_assoc; reflexivity.
Qed.

End Synchronisation.

(** C2, as stated, fails: two calls with the same cycle leave two deferred
    guest updates outstanding at once, both attached to that cycle. *)
Lemma SynchronizeGuestWithCycle_two_outstanding_counterexample :
  attached fresh = []
  /\ attached (perform_all idle_gpu
                 [OpSynchronizeGuestWithCycle 7%nat; OpSynchronizeGuestWithCycle 7%nat]
                 fresh) = [7%nat; 7%nat]
  /\ ~ (outstanding (perform_all idle_gpu
                       [OpSynchronizeGuestWithCycle 7%nat; OpSynchronizeGuestWithCycle 7%nat]
                       fresh) <= 1)%nat.
Proof.
  split; [reflexivity|]. split; [reflexivity|].
  unfold outstanding. simpl. lia.
Qed.

Lemma SynchronizeGuestWithCycle_defers_witness :
  cycle (SynchronizeGuestWithCycle idle_gpu 8%nat
           (perform_all idle_gpu [OpSynchronizeGuestWithCycle 7%nat] fresh)) = Some 8%nat
  /\ attached (SynchronizeGuestWithCycle idle_gpu 8%nat
                 (perform_all idle_gpu [OpSynchronizeGuestWithCycle 7%nat] fresh))
     = [8%nat].
Proof.
  destruct (SynchronizeGuestWithCycle_defers idle_gpu 8%nat fresh
              [OpSynchronizeGuestWithCycle 7%nat] eq_refl)
    as (_ & _ & Hc & _ & _ & Hone).
  split; [exact Hc|].
  apply Hone. simpl. discriminate.
Defined.

Lemma fresh_sizes : Forall (fun m => 0 <= size m) (mappings fresh).
Proof. simpl. repeat constructor; simpl; lia. Qed.

Lemma SynchronizeHost_SynchronizeGuest_roundtrip_witness :
  memory (SynchronizeGuest idle_gpu (SynchronizeHost idle_gpu fresh)) 0x1005
  = memory fresh 0x1005.
Proof.
  destruct (SynchronizeHost_SynchronizeGuest_roundtrip idle_gpu fresh fresh_sizes)
    as [_ Hidle].
  apply Hidle. reflexivity.
Defined.

Lemma SynchronizeHostWithCycle_like_SynchronizeHost_witness :
  SynchronizeHostWithCycle idle_gpu (Some 3%nat) fresh = SynchronizeHost idle_gpu fresh.
Proof.
  destruct (SynchronizeHostWithCycle_like_SynchronizeHost idle_gpu (Some 3%nat) fresh
              fresh_sizes) as [Hother _].
  apply Hother. simpl. discriminate.
Defined.

Lemma Buffer_destroy_synchronizes_then_unmaps_witness :
  let s := SynchronizeGuestWithCycle idle_gpu 7%nat fresh in
  agrees (mappings s) 0 (memory (Buffer_destroy idle_gpu s))
         (backing (Buffer_destroy idle_gpu s))
  /\ cycle (Buffer_destroy idle_gpu s) = None.
Proof.
  cbv zeta.
  destruct (Buffer_destroy_synchronizes_then_unmaps idle_gpu
              (SynchronizeGuestWithCycle idle_gpu 7%nat fresh))
    as (Hag & _ & Hc & _).
  - simpl. repeat constructor; simpl; lia.
  - simpl. repeat constructor. intros a. unfold in_span. simpl. lia.
  - split; [exact Hag|exact Hc].
Defined.

(** ** Views *)

Lemma view_matches_eq (v : BufferView) (o r f : Z) :
  view_matches v o r f = true <-> v = {| offset := o; range := r; format := f |}.
Proof.
  unfold view_matches. destruct v as [vo vr vf]. simpl. split.
  - intros H. apply andb_true_iff in H as [H Hf]. apply andb_true_iff in H as [Ho Hr].
    apply Z.eqb_eq in Ho, Hr, Hf. now subst.
  - intros H. injection H as -> -> ->. now rewrite !Z.eqb_refl.
Qed.

Lemma find_view_some (h : list ViewCell) (o r f : Z) (ws : list ViewId) (w : ViewId) :
  find_view h o r f ws = Some w ->
  In w ws /\ lock_weak h w = Some {| offset := o; range := r; format := f |}.
Proof.
  induction ws as [|x ws IH]; simpl; [discriminate|].
  destruct (lock_weak h x) as [v|] eqn:Hx.
  - destruct (view_matches v o r f) eqn:Hm.
    + intros H. injection H as <-. apply view_matches_eq in Hm. subst v. auto.
    + intros H. destruct (IH H). auto.
  - intros H. destruct (IH H). auto.
Qed.

Lemma find_view_none (h : list ViewCell) (o r f : Z) (ws : list ViewId) :
  find_view h o r f ws = None ->
  forall w, In w ws -> lock_weak h w <> Some {| offset := o; range := r; format := f |}.
Proof.
  induction ws as [|x ws IH]; simpl; intros H w Hw; [contradiction|].
  destruct (lock_weak h x) as [v|] eqn:Hx.
  - destruct (view_matches v o r f) eqn:Hm; [discriminate|].
    destruct Hw as [->|Hw]; [|now apply IH].
    rewrite Hx. intros E. injection E as ->.
    assert (view_matches {| offset := o; range := r; format := f |} o r f = true)
      by now apply view_matches_eq.
    congruence.
  - destruct Hw as [->|Hw]; [|now apply IH]. rewrite Hx. discriminate.
Qed.

Lemma lock_weak_old (h : list ViewCell) (c : ViewCell) (w : ViewId) :
  (w < length h)%nat -> lock_weak (h ++ [c]) w = lock_weak h w.
Proof. intros H. unfold lock_weak. now rewrite nth_error_app1. Qed.

Lemma lock_weak_new (h : list ViewCell) (v : BufferView) :
  lock_weak (h ++ [{| cell_view := v; alive := true |}]) (length h) = Some v.
Proof.
  unfold lock_weak. rewrite nth_error_app2 by lia. now rewrite Nat.sub_diag.
Qed.

Lemma kill_length (h : list ViewCell) : forall w, length (kill h w) = length h.
Proof.
  induction h as [|c h IH]; intros w; simpl; [reflexivity|].
  destruct w; simpl; [reflexivity|]. now rewrite IH.
Qed.

Lemma lock_weak_kill (h : list ViewCell) :
  forall w w' v, lock_weak (kill h w) w' = Some v -> lock_weak h w' = Some v /\ w' <> w.
Proof.
  induction h as [|c h IH]; intros w w' v; simpl.
  - unfold lock_weak. destruct w'; discriminate.
  - destruct w as [|w]; destruct w' as [|w']; unfold lock_weak; simpl.
    + discriminate.
    + intros H. split; [exact H|discriminate].
    + intros H. split; [exact H|discriminate].
    + intros H. destruct (IH w w' v H) as [H1 H2]. split; [exact H1|congruence].
Qed.

Lemma GetView_cases (o r f : Z) (s : Buffer) :
  (exists w, find_view (heap s) o r f (views s) = Some w
             /\ GetView o r f s = Returns (w, s))
  \/ (find_view (heap s) o r f (views s) = None
      /\ GetView o r f s =
         Returns (length (heap s),
                  set_views (views s ++ [length (heap s)])
                            (heap s ++ [{| cell_view :=
                                             {| offset := o; range := r; format := f |};
                                           alive := true |}]) s)).
Proof.
  unfold GetView. destruct (find_view (heap s) o r f (views s)) as [w|].
  - left. now exists w.
  - right. now split.
Qed.

Lemma perform_view_keeps (op : view_operation) (s : Buffer) :
  views_in_heap s /\ deduplicated s ->
  views_in_heap (perform_view op s) /\ deduplicated (perform_view op s).
Proof.
  intros [Hb Hd]. destruct op as [o r f|w]; simpl.
  - destruct (GetView_cases o r f s) as [(w & _ & ->)|(Hnone & ->)]; [now split|].
    split.
    + intros w Hw. simpl in *. rewrite length_app. simpl.
      apply in_app_iff in Hw as [Hw|[<-|[]]]; [|lia].
      specialize (Hb w Hw). lia.
    + assert (Hold : forall w v,
                 In w (views s) ->
                 lock_weak (heap s ++ [{| cell_view :=
                                            {| offset := o; range := r; format := f |};
                                          alive := true |}]) w = Some v ->
                 live_view s w v).
      { intros w v Hw Hl. split; [assumption|].
        now rewrite lock_weak_old in Hl by now apply Hb. }
      assert (Hfresh : forall w v,
                 In w (views s) ->
                 lock_weak (heap s ++ [{| cell_view :=
                                            {| offset := o; range := r; format := f |};
                                          alive := true |}]) w = Some v ->
                 v <> {| offset := o; range := r; format := f |}).
      { intros w v Hw Hl E. subst v.
        destruct (Hold _ _ Hw Hl) as [_ Hl'].
        exact (find_view_none _ _ _ _ _ Hnone w Hw Hl'). }
      intros w1 w2 v [Hw1 Hl1] [Hw2 Hl2]. simpl in *.
      apply in_app_iff in Hw1 as [Hw1|[<-|[]]];
        apply in_app_iff in Hw2 as [Hw2|[<-|[]]].
      * apply (Hd w1 w2 v); now apply Hold.
      * rewrite lock_weak_new in Hl2. injection Hl2 as <-.
        exfalso. exact (Hfresh _ _ Hw1 Hl1 eq_refl).
      * rewrite lock_weak_new in Hl1. injection Hl1 as <-.
        exfalso. exact (Hfresh _ _ Hw2 Hl2 eq_refl).
      * reflexivity.
  - split.
    + intros x Hx. simpl in *. rewrite kill_length. now apply Hb.
    + intros w1 w2 v [Hw1 Hl1] [Hw2 Hl2]. simpl in *.
      apply lock_weak_kill in Hl1 as [Hl1 _]. apply lock_weak_kill in Hl2 as [Hl2 _].
      apply (Hd w1 w2 v); now split.
Qed.

Lemma perform_views_keep (ops : list view_operation) :
  forall s, views_in_heap s /\ deduplicated s ->
            views_in_heap (perform_views ops s) /\ deduplicated (perform_views ops s).
Proof.
  induction ops as [|op ops IH]; intros s H; simpl; [assumption|].
  apply IH. now apply perform_view_keeps.
Qed.

(** C7 (amended). On a Buffer reached from one without views by any sequence
    of GetView calls and view releases: no two live views of the cache carry
    the same (offset, range, format); GetView with the triple of a live
    cached view returns that view and changes nothing; otherwise it makes a
    new view, appends a weak reference to it and returns it. The view
    returned is alive and carries the requested triple. No weak reference,
    dead or alive, is ever removed from the cache. *)
Theorem GetView_deduplicates (ops : list view_operation) (s0 : Buffer) (o r f : Z) :
  no_views s0 ->
  let s := perform_views ops s0 in
  let triple := {| offset := o; range := r; format := f |} in
  deduplicated s
  /\ (forall w, live_view s w triple -> GetView o r f s = Returns (w, s))
  /\ ((forall w, ~ live_view s w triple) ->
      GetView o r f s =
      Returns (length (heap s),
               set_views (views s ++ [length (heap s)])
                         (heap s ++ [{| cell_view := triple; alive := true |}]) s))
  /\ (forall v s', GetView o r f s = Returns (v, s') ->
                   live_view s' v triple
                   /\ deduplicated s'
                   /\ forall w, In w (views s) -> In w (views s')).
Proof.
  intros [Hv Hh] s triple.
  assert (Hinv : views_in_heap s /\ deduplicated s).
  { apply perform_views_keep. split.
    - intros w Hw. rewrite Hv in Hw. contradiction.
    - intros w1 w2 v [Hw1 _]. rewrite Hv in Hw1. contradiction. }
  destruct Hinv as [Hb Hd].
  split; [exact Hd|]. split; [|split].
  - intros w [Hw Hl].
    destruct (GetView_cases o r f s) as [(w' & Hf & ->)|(Hnone & _)].
    + apply find_view_some in Hf as [Hw' Hl'].
      now rewrite (Hd w' w triple (conj Hw' Hl') (conj Hw Hl)).
    + exfalso. exact (find_view_none _ _ _ _ _ Hnone w Hw Hl).
  - intros Hnone.
    destruct (GetView_cases o r f s) as [(w' & Hf & _)|(_ & ->)]; [|reflexivity].
    apply find_view_some in Hf. exfalso. exact (Hnone w' Hf).
  - intros v s' Hg.
    pose proof (perform_view_keeps (VGetView o r f) s (conj Hb Hd)) as [_ Hd'].
    simpl in Hd'. rewrite Hg in Hd'.
    destruct (GetView_cases o r f s) as [(w' & Hf & Hr)|(_ & Hr)];
      rewrite Hr in Hg; injection Hg as <- <-.
    + apply find_view_some in Hf. repeat split; auto; apply Hf.
    + repeat split; simpl.
      * apply in_app_iff. right. now left.
      * apply lock_weak_new.
      * exact Hd'.
      * intros w Hw. apply in_app_iff. now left.
Qed.

Lemma GetView_deduplicates_witness :
  let s := perform_views [VGetView 0 4 0; VGetView 8 4 0] fresh in
  GetView 0 4 0 s = Returns (0%nat, s).
Proof.
  cbv zeta.
  destruct (GetView_deduplicates [VGetView 0 4 0; VGetView 8 4 0] fresh 0 4 0)
    as (_ & Hsame & _).
  - split; reflexivity.
  - apply Hsame. split; [simpl; auto | reflexivity].
Defined.

(** C7, as stated, fails: the scan prunes nothing. After the only view is
    released, a GetView for its triple walks past the dead weak reference,
    makes a new view and leaves the dead reference in the cache. *)
Lemma GetView_keeps_dead_reference_counterexample :
  let s := perform_views [VGetView 0 4 0; VRelease 0%nat] fresh in
  lock_weak (heap s) 0%nat = None
  /\ exists s', GetView 0 4 0 s = Returns (1%nat, s')
                /\ views s' = [0%nat; 1%nat]
                /\ lock_weak (heap s') 0%nat = None.
Proof.
  cbv zeta. split; [reflexivity|].
  eexists. split; [reflexivity|]. split; reflexivity.
Qed.

(** C9 (amended). Neither operation validates geometry. The constructor
    never throws: it returns for every non-empty region set, overlapping or
    not, and is undefined for the empty one. GetView never throws: for every
    offset, range and format, whatever the Buffer's size, it returns a live
    view carrying exactly the requested triple. *)
Theorem geometry_is_not_validated :
  (forall gpu_work guest memory0 backing0 e,
      Buffer_new gpu_work guest memory0 backing0 <> Throws e)
  /\ (forall gpu_work guest memory0 backing0,
         guest <> [] <-> exists s, Buffer_new gpu_work guest memory0 backing0 = Returns s)
  /\ (forall gpu_work memory0 backing0,
         Buffer_new gpu_work [] memory0 backing0 = Undefined)
  /\ (forall o r f s,
         exists v s', GetView o r f s = Returns (v, s')
                      /\ lock_weak (heap s') v
                         = Some {| offset := o; range := r; format := f |}).
Proof.
  split; [|split; [|split]].
  - intros gpu_work guest memory0 backing0 e. unfold Buffer_new.
    destruct guest as [|m [|m' rest]]; simpl; discriminate.
  - intros gpu_work guest memory0 backing0. unfold Buffer_new. split.
    + intros Hne. destruct guest as [|m [|m' rest]]; [congruence| |];
        simpl; eexists; reflexivity.
    + intros [s Hs] ->. discriminate.
  - reflexivity.
  - intros o r f s.
    destruct (GetView_cases o r f s) as [(w & Hf & ->)|(_ & ->)].
    + apply find_view_some in Hf as [_ Hl]. now exists w, s.
    + eexists _, _. split; [reflexivity|]. simpl. apply lock_weak_new.
Qed.

(** C9, as stated, fails: overlapping regions are accepted by the
    constructor, and a view reaching past the end of the Buffer is handed
    out; neither call signals an invalid argument. *)
Lemma geometry_violations_accepted_counterexample :
  ~ non_overlapping overlapping_regions
  /\ (exists s, Buffer_new idle_gpu overlapping_regions zeroed zeroed = Returns s)
  /\ buffer_size fresh = 0x30
  /\ buffer_size fresh < 0x28 + 0x10
  /\ (exists v s', GetView 0x28 0x10 0 fresh = Returns (v, s'))
  /\ GetView 0x28 0x10 0 fresh <> Throws invalid_argument
  /\ Buffer_new idle_gpu overlapping_regions zeroed zeroed <> Throws invalid_argument
  /\ Buffer_new idle_gpu [] zeroed zeroed <> Throws invalid_argument.
Proof.
  split; [|split; [|split; [|split; [|split; [|split; [|split]]]]]].
  - simpl. intros [H _]. inversion H as [|? ? Hx _]; subst.
    apply (Hx 0x2000); unfold in_span; simpl; lia.
  - eexists. reflexivity.
  - reflexivity.
  - reflexivity.
  - eexists _, _. reflexivity.
  - discriminate.
  - discriminate.
  - discriminate.
Qed.

(** ** Locking a view whose Buffer may be replaced *)

Lemma holds_set_owner (w : shared) (b x : BufferId) (o : option ThreadId) :
  holds (set_owner b o w) x <-> (x = b /\ o = Some caller) \/ (x <> b /\ holds w x).
Proof.
  unfold holds, set_owner. simpl. destruct (Nat.eqb x b) eqn:E.
  - apply Nat.eqb_eq in E. subst x. split.
    + intros H. left. now split.
    + intros [[_ H]|[H _]]; [assumption|congruence].
  - apply Nat.eqb_neq in E. split.
    + intros H. right. now split.
    + intros [[H _]|[_ H]]; [congruence|assumption].
Qed.

Lemma environment_keeps_holdings (l : label) (p p' : pc) (w w' : shared) :
  is_environment l = true -> exec l (p, w) = Some (p', w') ->
  p' = p /\ forall b, holds w' b <-> holds w b.
Proof.
  intros Henv H. destruct l as [| |b|t b|t b]; try discriminate; cbn [exec] in H.
  - injection H as <- <-. split; [reflexivity|]. intros x. reflexivity.
  - destruct (Nat.eqb t caller) eqn:Et; [discriminate|].
    destruct (owner w b) eqn:Eo; [discriminate|].
    injection H as <- <-. split; [reflexivity|]. intros x.
    rewrite holds_set_owner. apply Nat.eqb_neq in Et. unfold holds. split.
    + intros [[_ H]|[_ H]]; [congruence|assumption].
    + intros H. right. split; [congruence|assumption].
  - destruct (Nat.eqb t caller) eqn:Et; [discriminate|].
    destruct (thread_eqb (owner w b) t) eqn:Eo; [|discriminate].
    injection H as <- <-. split; [reflexivity|]. intros x.
    rewrite holds_set_owner. apply Nat.eqb_neq in Et. unfold holds. split.
    + intros [[_ H]|[_ H]]; [discriminate|assumption].
    + intros H. right. split; [|assumption]. intros ->.
      rewrite H in Eo. unfold thread_eqb in Eo. apply Nat.eqb_eq in Eo. congruence.
Qed.

Lemma caller_step_keeps_invariant (p : pc) (w : shared) (c' : config) :
  lock_invariant (p, w) -> caller_step p w = Some c' -> lock_invariant c'.
Proof.
  unfold lock_invariant. simpl. intros Hinv H.
  destruct p as [|b|b|b l|b| |b|b success|b l|b success]; simpl in H.
  - injection H as <-. exact Hinv.
  - destruct (owner w b) eqn:Eo; [discriminate|]. injection H as <-. simpl.
    intros x. rewrite holds_set_owner. split.
    + intros [[-> _]|[_ Hx]]; [reflexivity|]. apply Hinv in Hx. discriminate.
    + intros E. injection E as <-. left. now split.
  - destruct (Nat.eqb b (buffer w)); injection H as <-; exact Hinv.
  - injection H as <-. simpl. intros x. rewrite holds_set_owner. split.
    + intros [[_ E]|[Hne Hx]]; [discriminate|].
      apply Hinv in Hx. simpl in Hx. congruence.
    + discriminate.
  - discriminate.
  - injection H as <-. exact Hinv.
  - destruct (owner w b) eqn:Eo; injection H as <-; simpl; [exact Hinv|].
    intros x. rewrite holds_set_owner. split.
    + intros [[-> _]|[_ Hx]]; [reflexivity|]. apply Hinv in Hx. discriminate.
    + intros E. injection E as <-. left. now split.
  - destruct (Nat.eqb b (buffer w)); [injection H as <-; exact Hinv|].
    destruct success; injection H as <-; exact Hinv.
  - injection H as <-. simpl. intros x. rewrite holds_set_owner. split.
    + intros [[_ E]|[Hne Hx]]; [discriminate|].
      apply Hinv in Hx. simpl in Hx. congruence.
    + discriminate.
  - discriminate.
Qed.

Lemma exec_keeps_invariant (l : label) (c c' : config) :
  lock_invariant c -> exec l c = Some c' -> lock_invariant c'.
Proof.
  destruct c as [p w], c' as [p' w']. intros Hinv H.
  destruct (is_environment l) eqn:El.
  - destruct (environment_keeps_holdings l p p' w w' El H) as [-> Hh].
    intros x. simpl. rewrite Hh. apply Hinv.
  - destruct l; try discriminate; simpl in H.
    + now apply (caller_step_keeps_invariant p w).
    + destruct p; try discriminate. injection H as <- <-. exact Hinv.
Qed.

Lemma run_keeps_invariant (schedule : list label) :
  forall c c', lock_invariant c -> run schedule c = Some c' -> lock_invariant c'.
Proof.
  induction schedule as [|l rest IH]; intros c c' Hinv H; simpl in H.
  - now injection H as <-.
  - destruct (exec l c) as [c1|] eqn:E; [|discriminate].
    apply (IH c1); [|assumption]. now apply (exec_keeps_invariant l c).
Qed.

Lemma initial_invariant (c : config) : initial c -> lock_invariant c.
Proof.
  intros [Hp Hnone] b. split.
  - intros H. exfalso. now apply (Hnone b).
  - intros H. destruct Hp as [Hp|Hp]; rewrite Hp in H; discriminate.
Qed.

(** C3 (amended). Along every interleaving of a [lock()] or [try_lock()]
    call with replacements of the view's Buffer and with other threads'
    locking, the caller never holds two Buffer mutexes. When [lock()]
    returns, the slot read by its last load names the Buffer whose mutex the
    caller holds, and the caller holds no other. When [try_lock()] returns,
    its last load found the slot unchanged from the Buffer it tried; it
    returns true holding exactly that Buffer's mutex, or false holding none.
    (The equality of the two loads does not exclude replacements in between
    that restored the same Buffer.) *)
Theorem lock_returns_holding_current_buffer
  (c0 : config) (schedule : list label) (p : pc) (w : shared) :
  initial c0 ->
  run schedule c0 = Some (p, w) ->
  (forall b1 b2, holds w b1 -> holds w b2 -> b1 = b2)
  /\ (forall b w', exec Step (p, w) = Some (LockReturned b, w') ->
                   p = LockRecheck b
                   /\ buffer w' = b /\ holds w' b
                   /\ forall b', holds w' b' -> b' = b)
  /\ (forall b success w', exec Step (p, w) = Some (TryReturned b success, w') ->
                           p = TryRecheck b success
                           /\ buffer w' = b
                           /\ (success = true ->
                               holds w' b /\ forall b', holds w' b' -> b' = b)
                           /\ (success = false -> forall b', ~ holds w' b')).
Proof.
  intros Hinit Hrun.
  pose proof (run_keeps_invariant schedule c0 (p, w)
                (initial_invariant c0 Hinit) Hrun) as Hinv.
  unfold lock_invariant in Hinv. simpl in Hinv.
  split; [|split].
  - intros b1 b2 H1 H2. apply Hinv in H1, H2. congruence.
  - intros b w' H. simpl in H.
    destruct p as [|x|x|x l|x| |x|x s|x l|x s]; simpl in H; try discriminate.
    + destruct (owner w x); discriminate.
    + destruct (Nat.eqb x (buffer w)) eqn:E; [|discriminate].
      injection H as <- <-. apply Nat.eqb_eq in E.
      split; [reflexivity|]. split; [now symmetry|]. split.
      * now apply Hinv.
      * intros b' Hb'. apply Hinv in Hb'. simpl in Hb'. congruence.
    + destruct (owner w x); discriminate.
    + destruct (Nat.eqb x (buffer w)); [discriminate|]. destruct s; discriminate.
  - intros b success w' H. simpl in H.
    destruct p as [|x|x|x l|x| |x|x s|x l|x s]; simpl in H; try discriminate.
    + destruct (owner w x); discriminate.
    + destruct (Nat.eqb x (buffer w)); discriminate.
    + destruct (owner w x); discriminate.
    + destruct (Nat.eqb x (buffer w)) eqn:E.
      * injection H as <- <- <-. apply Nat.eqb_eq in E.
        split; [reflexivity|]. split; [now symmetry|]. split.
        -- intros ->. split; [now apply Hinv|].
           intros b' Hb'. apply Hinv in Hb'. simpl in Hb'. congruence.
        -- intros -> b' Hb'. apply Hinv in Hb'. discriminate.
      * destruct s; discriminate.
Qed.

Lemma lock_returns_holding_current_buffer_witness :
  let w := set_owner 2%nat (Some caller)
             (set_owner 1%nat None
                (set_owner 1%nat (Some caller) (set_buffer 2%nat view_on_1))) in
  run [Step; Swap 2%nat; Step; Step; Step; Step] (LockEntry, view_on_1)
  = Some (LockRecheck 2%nat, w)
  /\ exec Step (LockRecheck 2%nat, w) = Some (LockReturned 2%nat, w)
  /\ buffer w = 2%nat /\ holds w 2%nat /\ ~ holds w 1%nat.
Proof.
  cbv zeta.
  assert (Hinit : initial (LockEntry, view_on_1)).
  { split; [now left|]. intros b H. discriminate H. }
  assert (Hrun : run [Step; Swap 2%nat; Step; Step; Step; Step] (LockEntry, view_on_1)
                 = Some (LockRecheck 2%nat,
                         set_owner 2%nat (Some caller)
                           (set_owner 1%nat None
                              (set_owner 1%nat (Some caller)
                                 (set_buffer 2%nat view_on_1)))))
    by reflexivity.
  destruct (lock_returns_holding_current_buffer _ _ _ _ Hinit Hrun)
    as (_ & Hlock & _).
  destruct (Hlock 2%nat _ eq_refl) as (_ & Hb & Hh & Honly).
  repeat split; try assumption; try reflexivity.
  intros H1. apply Honly in H1. discriminate H1.
Defined.

(** C3, as stated, fails: between the acquisition of Buffer 1's mutex and
    the re-check the slot is replaced by Buffer 2 and then by Buffer 1
    again; the re-check compares equal and [lock()] returns, although
    replacements did intervene. *)
Lemma lock_intervening_swap_counterexample :
  initial (LockEntry, view_on_1)
  /\ run [Step] (LockEntry, view_on_1) = Some (LockAcquire 1%nat, view_on_1)
  /\ returns_after view_on_1 1%nat [Swap 2%nat; Swap 1%nat]
  /\ existsb is_swap [Swap 2%nat; Swap 1%nat] = true.
Proof.
  split; [|split; [|split]].
  - split; [now left|]. intros b H. discriminate H.
  - reflexivity.
  - split; [reflexivity|]. eexists. reflexivity.
  - reflexivity.
Qed.


(** * Further properties of the code *)

(** ** Sizes and mirror geometry *)

Lemma fold_wrap_mod (l : list span) :
  forall acc,
    fold_left (fun total it => wrap64 (total + size_bytes it)) l (wrap64 acc)
    = wrap64 (acc + total_size l).
Proof.
  induction l as [|s l IH]; intros acc; simpl.
  - now rewrite Z.add_0_r.
  - rewrite IH. unfold wrap64, size_bytes.
    rewrite <- Z.add_assoc, Zplus_mod_idemp_l. reflexivity.
Qed.

(** X1. BufferSize is the sum of the region lengths reduced modulo 2^64: it
    always fits the 64-bit size, is 0 for no regions, and wraps around
    rather than failing when the lengths sum past 2^64. *)
Theorem BufferSize_is_sum_modulo (mappings : list span) :
  BufferSize mappings = total_size mappings mod 2 ^ 64
  /\ 0 <= BufferSize mappings < 2 ^ 64.
Proof.
  assert (H : BufferSize mappings = total_size mappings mod 2 ^ 64).
  { unfold BufferSize. change 0 with (wrap64 0) at 1.
    rewrite fold_wrap_mod. reflexivity. }
  split; [exact H|]. rewrite H. apply Z.mod_pos_bound. lia.
Qed.

Lemma page_aligned_fixed (a : Z) :
  IsPageAligned a -> page_floor a = a /\ page_ceil a = a.
Proof.
  intros Ha. split.
  - unfold page_floor, IsPageAligned in *.
    assert (Hp : PAGE_SIZE = 4096) by reflexivity. rewrite Hp in *.
    pose proof (Z.div_mod a 4096 ltac:(lia)). lia.
  - replace a with (a + 0) at 1 by lia. rewrite page_ceil_shift by assumption.
    change (page_ceil 0) with 0. lia.
Qed.

Lemma page_aligned_sub (a b : Z) :
  IsPageAligned a -> IsPageAligned b -> IsPageAligned (a - b).
Proof.
  unfold IsPageAligned. intros Ha Hb.
  assert (Hp : PAGE_SIZE = 4096) by reflexivity. rewrite Hp in *.
  rewrite Zminus_mod, Ha, Hb. reflexivity.
Qed.

Lemma page_floor_offset (a : Z) : a - page_floor a = a mod PAGE_SIZE.
Proof.
  unfold page_floor. assert (Hp : PAGE_SIZE = 4096) by reflexivity. rewrite Hp.
  rewrite Z.mod_eq by lia. reflexivity.
Qed.

(** X2. For one region inside the address space, the mapping requested starts
    and ends on page boundaries, contains the region, adds less than a page
    on either side, and is empty exactly for an empty region at a page
    boundary. *)
Theorem SetupGuestMappings_single_covers (mapping : span) :
  span_wf mapping ->
  exists alignedData alignedSize,
    SetupGuestMappings [mapping] =
    Returns {| alignedMirror := CreateMirror alignedData alignedSize;
               mirror_offset := data mapping - alignedData;
               mirror_size := size mapping |}
    /\ IsPageAligned alignedData
    /\ IsPageAligned alignedSize
    /\ alignedData <= data mapping < alignedData + PAGE_SIZE
    /\ span_end mapping <= alignedData + alignedSize < span_end mapping + PAGE_SIZE
    /\ (alignedSize = 0 <-> size mapping = 0 /\ IsPageAligned (data mapping)).
Proof.
  intros Hwf. pose proof Hwf as (Hd & Hs & He).
  exists (page_floor (data mapping)),
         (page_ceil (span_end mapping) - page_floor (data mapping)).
  pose proof (page_floor_bounds (data mapping)) as Hf.
  pose proof (page_ceil_bounds (span_end mapping)) as Hc.
  unfold span_end in *.
  split; [now apply SetupGuestMappings_single|].
  split; [apply page_floor_aligned|].
  split; [apply page_aligned_sub; [apply page_ceil_aligned|apply page_floor_aligned]|].
  split; [lia|]. split; [lia|]. split.
  - intros Hz. assert (Hsz : size mapping = 0) by lia. split; [exact Hsz|].
    replace (data mapping) with (page_floor (data mapping)) by lia.
    apply page_floor_aligned.
  - intros [Hsz Hal]. rewrite Hsz, Z.add_0_r.
    destruct (page_aligned_fixed _ Hal) as [-> ->]. lia.
Qed.

Lemma SetupGuestMappings_single_covers_witness :
  exists alignedData alignedSize,
    SetupGuestMappings [{| data := 0x1234; size := 0x2000 |}] =
    Returns {| alignedMirror := CreateMirror alignedData alignedSize;
               mirror_offset := 0x1234 - alignedData;
               mirror_size := 0x2000 |}
    /\ IsPageAligned alignedData /\ IsPageAligned alignedSize.
Proof.
  destruct (SetupGuestMappings_single_covers {| data := 0x1234; size := 0x2000 |})
    as (lo & sz & Heq & Hlo & Hsz & _).
  - unfold span_wf. simpl. lia.
  - exists lo, sz. repeat split; assumption.
Defined.

(** X3. For any non-empty region set inside the address space, the logical
    mirror starts at the first region's offset within its page, is as long
    as all regions together, and lies inside the requested mapping, which
    begins on a page boundary, has one span per region and exceeds the
    mirror's end by less than a page. *)
Theorem SetupGuestMappings_mirror_within_mapping
  (front : span) (rest : list span) (m : GuestMirror) :
  Forall span_wf (front :: rest) ->
  total_size (front :: rest) < 2 ^ 64 ->
  SetupGuestMappings (front :: rest) = Returns m ->
  mirror_offset m = data front mod PAGE_SIZE
  /\ mirror_size m = total_size (front :: rest)
  /\ mirror_offset m + mirror_size m <= total_size (requested_spans (alignedMirror m))
     < mirror_offset m + mirror_size m + PAGE_SIZE
  /\ length (requested_spans (alignedMirror m)) = length (front :: rest)
  /\ exists first others,
       requested_spans (alignedMirror m) = first :: others
       /\ data first + mirror_offset m = data front
       /\ IsPageAligned (data first).
Proof.
  intros Hwf Hsum Hm.
  destruct (exists_last (l := front :: rest) ltac:(discriminate)) as (l' & back & Heq).
  destruct l' as [|front' internal]; simpl in Heq.
  - injection Heq as <- Hrest. subst rest.
    inversion Hwf as [|? ? Hf _]; subst. pose proof Hf as (Hd & Hs & He).
    rewrite SetupGuestMappings_single in Hm by assumption. injection Hm as <-.
    unfold spec_single, span_end. simpl.
    pose proof (page_floor_bounds (data front)).
    pose proof (page_ceil_bounds (data front + size front)).
    split; [apply page_floor_offset|]. split; [lia|]. split; [lia|].
    split; [reflexivity|].
    eexists _, _. split; [reflexivity|]. simpl.
    split; [lia|apply page_floor_aligned].
  - injection Heq as <- Hrest. subst rest.
    rewrite SetupGuestMappings_multi in Hm by assumption. injection Hm as <-.
    cbn [mirror_offset mirror_size alignedMirror requested_spans].
    pose proof (page_floor_bounds (data front)).
    pose proof (page_ceil_bounds (size back)).
    split; [apply page_floor_offset|]. split; [reflexivity|].
    split.
    + rewrite !total_size_cons, !total_size_app. unfold span_end. simpl. lia.
    + split.
      * simpl. rewrite !length_app. reflexivity.
      * eexists _, _. split; [reflexivity|]. simpl.
        split; [lia|apply page_floor_aligned].
Qed.

Lemma SetupGuestMappings_mirror_within_mapping_witness :
  exists m,
    SetupGuestMappings two_regions = Returns m
    /\ mirror_offset m = 0x1000 mod PAGE_SIZE
    /\ mirror_size m = total_size two_regions.
Proof.
  eexists. split; [reflexivity|].
  destruct (SetupGuestMappings_mirror_within_mapping
              {| data := 0x1000; size := 0x20 |} [{| data := 0x4000; size := 0x10 |}] _
              two_regions_wf two_regions_fit eq_refl) as (Ho & Hs & _).
  split; [exact Ho|exact Hs].
Defined.

(** ** Synchronisation *)

Lemma copy_to_host_above (ms : list span) :
  forall host guest backing a,
    Forall (fun m => 0 <= size m) ms -> host + total_size ms <= a ->
    copy_to_host ms host guest backing a = backing a.
Proof.
  induction ms as [|m rest IH]; intros host guest backing a Hnn Ha; simpl; [reflexivity|].
  inversion Hnn as [|? ? Hm Hrest]; subst.
  rewrite total_size_cons in Ha. pose proof (total_size_nonneg rest Hrest).
  unfold size_bytes. rewrite IH by (auto; lia).
  unfold memcpy.
  replace ((host <=? a) && (a <? host + size m)) with false; [reflexivity|].
  symmetry. apply andb_false_iff. right. apply Z.ltb_ge. lia.
Qed.

Lemma copy_to_host_ext (ms : list span) :
  forall host guest b1 b2,
    Forall (fun m => 0 <= size m) ms ->
    (forall a, a < host \/ host + total_size ms <= a -> b1 a = b2 a) ->
    forall a, copy_to_host ms host guest b1 a = copy_to_host ms host guest b2 a.
Proof.
  induction ms as [|m rest IH]; intros host guest b1 b2 Hnn Hout a; simpl.
  - apply Hout. simpl. lia.
  - inversion Hnn as [|? ? Hm Hrest]; subst.
    pose proof (total_size_nonneg rest Hrest).
    unfold size_bytes. apply IH; [assumption|].
    intros x Hx. unfold memcpy.
    destruct ((host <=? x) && (x <? host + size m)) eqn:Hc; [reflexivity|].
    apply Hout. rewrite total_size_cons.
    apply andb_false_iff in Hc as [Hc|Hc];
      [apply Z.leb_gt in Hc|apply Z.ltb_ge in Hc]; lia.
Qed.

Lemma copy_to_host_fixed (ms : list span) :
  forall host guest backing,
    Forall (fun m => 0 <= size m) ms ->
    agrees ms host guest backing ->
    forall a, copy_to_host ms host guest backing a = backing a.
Proof.
  induction ms as [|m rest IH]; intros host guest backing Hnn Hag a; simpl; [reflexivity|].
  inversion Hnn as [|? ? Hm Hrest]; subst. destruct Hag as [Hhere Hlater].
  unfold size_bytes.
  assert (Hsame : forall x, memcpy backing host guest (data m) (size m) x = backing x).
  { intros x. unfold memcpy.
    destruct ((host <=? x) && (x <? host + size m)) eqn:Hc; [|reflexivity].
    apply andb_true_iff in Hc as [H0 H1]. apply Z.leb_le in H0. apply Z.ltb_lt in H1.
    rewrite <- (Hhere (x - host)) by lia. f_equal. lia. }
  rewrite (copy_to_host_ext rest _ _ _ backing Hrest) by (intros; apply Hsame).
  now apply IH.
Qed.

Lemma agrees_flat (ms : list span) :
  forall host guest backing o,
    Forall (fun m => 0 <= size m) ms ->
    agrees ms host guest backing ->
    0 <= o < total_size ms ->
    exists a, spans_address ms o = Some a /\ backing (host + o) = guest a.
Proof.
  induction ms as [|m rest IH]; intros host guest backing o Hnn Hag Ho; simpl in *; [lia|].
  inversion Hnn as [|? ? Hm Hrest]; subst. destruct Hag as [Hhere Hlater].
  destruct (o <? size m) eqn:Hlt.
  - apply Z.ltb_lt in Hlt. eexists. split; [reflexivity|]. apply Hhere. lia.
  - apply Z.ltb_ge in Hlt.
    destruct (IH _ _ _ (o - size m) Hrest Hlater ltac:(lia)) as (a & Ha & Hb).
    exists a. split; [exact Ha|]. rewrite <- Hb. f_equal. lia.
Qed.

Lemma same_frame_refl (s : Buffer) : same_frame s s.
Proof. repeat split. Qed.

Lemma same_frame_trans (s1 s2 s3 : Buffer) :
  same_frame s1 s2 -> same_frame s2 s3 -> same_frame s1 s3.
Proof.
  intros (Hm & Hmi & Hsz & Hv & Hh & Hmem) (Hm' & Hmi' & Hsz' & Hv' & Hh' & Hmem').
  repeat split; try congruence.
  intros a Ha. rewrite Hmem'; [now apply Hmem|].
  unfold outside_regions in *. now rewrite Hm.
Qed.

Lemma host_to_guest_frame (s : Buffer) : same_frame s (host_to_guest s).
Proof.
  repeat split. intros a Ha. simpl. now apply copy_to_guest_outside.
Qed.

Section FrameFacts.

Variable gpu_work : CycleId -> mem -> mem.

Lemma BufferGuestSync_destroy_frame (s : Buffer) :
  same_frame s (BufferGuestSync_destroy s).
Proof.
  unfold BufferGuestSync_destroy.
  apply (same_frame_trans _ (WaitOnFence_completed s)); [|apply host_to_guest_frame].
  unfold WaitOnFence_completed. destruct (cycle s); repeat split.
Qed.

Lemma destroy_dependencies_frame (n : nat) :
  forall s, same_frame s (destroy_dependencies n s).
Proof.
  induction n as [|n IH]; intros s; simpl; [apply same_frame_refl|].
  apply (same_frame_trans _ (BufferGuestSync_destroy s));
    [apply BufferGuestSync_destroy_frame|apply IH].
Qed.

Lemma complete_frame (c : CycleId) (s : Buffer) : same_frame s (complete gpu_work c s).
Proof.
  unfold complete. cbv zeta.
  match goal with
  | |- same_frame _ (destroy_dependencies ?n ?x) =>
      apply (same_frame_trans _ x); [repeat split|apply destroy_dependencies_frame]
  end.
Qed.

Lemma WaitOnFence_frame (s : Buffer) : same_frame s (WaitOnFence gpu_work s).
Proof.
  unfold WaitOnFence, FenceCycle_Wait. destruct (cycle s) as [c|]; [|apply same_frame_refl].
  apply (same_frame_trans _ (complete gpu_work c (emit (EvWait c) s))); [|repeat split].
  apply (same_frame_trans _ (emit (EvWait c) s)); [repeat split|apply complete_frame].
Qed.

Lemma perform_frame (op : operation) (s : Buffer) :
  same_frame s (perform gpu_work op s).
Proof.
  pose proof (WaitOnFence_frame s) as Hw.
  destruct op as [| |pCycle| |pCycle|c]; simpl.
  - exact Hw.
  - apply (same_frame_trans _ _ _ Hw). repeat split.
  - unfold SynchronizeHostWithCycle.
    destruct (negb (cycle_eqb pCycle (cycle s)));
      [apply (same_frame_trans _ _ _ Hw)|]; repeat split.
  - apply (same_frame_trans _ _ _ Hw). apply host_to_guest_frame.
  - unfold SynchronizeGuestWithCycle.
    destruct (negb (cycle_eqb (Some pCycle) (cycle s)));
      [apply (same_frame_trans _ _ _ Hw)|]; repeat split.
  - apply complete_frame.
Qed.

(** X10. No sequence of fence waits, synchronisations and cycle completions
    changes the Buffer's regions, size, mirror or views, and none writes a
    byte of guest memory that lies outside the Buffer's regions. *)
Theorem operations_keep_frame (ops : list operation) :
  forall s, same_frame s (perform_all gpu_work ops s).
Proof.
  induction ops as [|op ops IH]; intros s; simpl; [apply same_frame_refl|].
  apply (same_frame_trans _ (perform gpu_work op s)); [apply perform_frame|apply IH].
Qed.

(** X6. Waiting twice is waiting once: after WaitOnFence no cycle is pending
    and a second WaitOnFence changes nothing, not even the trace. *)
Theorem WaitOnFence_idempotent (s : Buffer) :
  cycle (WaitOnFence gpu_work s) = None
  /\ WaitOnFence gpu_work (WaitOnFence gpu_work s) = WaitOnFence gpu_work s.
Proof.
  destruct (WaitOnFence_fields gpu_work s) as (_ & _ & Hc & _).
  split; [exact Hc|]. now apply WaitOnFence_idle.
Qed.

(** X4. The constructor leaves the host backing holding every region's bytes in
    region order, writes nothing outside [0, sum of lengths), leaves guest
    memory untouched, and starts with no pending cycle, no deferred update
    and no view. *)
Theorem Buffer_new_initial_sync
  (guest : list span) (memory0 backing0 : mem) (s : Buffer) :
  Forall (fun m => 0 <= size m) guest ->
  Buffer_new gpu_work guest memory0 backing0 = Returns s ->
  agrees guest 0 memory0 (backing s)
  /\ (forall a, a < 0 \/ total_size guest <= a -> backing s a = backing0 a)
  /\ memory s = memory0
  /\ mappings s = guest
  /\ buffer_size s = BufferSize guest
  /\ cycle s = None /\ attached s = [] /\ views s = []
  /\ trace s = [EvCopyToHost].
Proof.
  intros Hnn Hnew. unfold Buffer_new in Hnew.
  destruct (SetupGuestMappings guest) as [m| |]; try discriminate.
  injection Hnew as <-. simpl.
  split; [now apply copy_to_host_agrees|].
  split; [|repeat split].
  intros a [Ha|Ha].
  - now apply copy_to_host_below.
  - now apply copy_to_host_above.
Qed.

(** X7. SynchronizeHost writes host offsets [0, sum of lengths) only, and doing
    it twice in a row gives the backing of doing it once. *)
Theorem SynchronizeHost_idempotent (s : Buffer) :
  Forall (fun m => 0 <= size m) (mappings s) ->
  (forall a, a < 0 \/ total_size (mappings s) <= a ->
             backing (SynchronizeHost gpu_work s) a = backing (WaitOnFence gpu_work s) a)
  /\ (forall a, backing (SynchronizeHost gpu_work (SynchronizeHost gpu_work s)) a
                = backing (SynchronizeHost gpu_work s) a)
  /\ memory (SynchronizeHost gpu_work (SynchronizeHost gpu_work s))
     = memory (SynchronizeHost gpu_work s).
Proof.
  intros Hnn.
  destruct (WaitOnFence_fields gpu_work s) as (Hm & _ & Hc & _).
  assert (Hidle : WaitOnFence gpu_work (SynchronizeHost gpu_work s)
                  = SynchronizeHost gpu_work s).
  { apply WaitOnFence_idle. exact Hc. }
  split; [|split].
  - intros a Ha. unfold SynchronizeHost. simpl. rewrite Hm.
    destruct Ha; [now apply copy_to_host_below|now apply copy_to_host_above].
  - intros a. unfold SynchronizeHost at 1. rewrite Hidle.
    unfold SynchronizeHost. simpl. rewrite Hm.
    apply copy_to_host_fixed; [assumption|]. now apply copy_to_host_agrees.
  - unfold SynchronizeHost at 1. rewrite Hidle. reflexivity.
Qed.

(** X8. With disjoint regions and no fence pending, SynchronizeGuest() followed
    by SynchronizeHost() gives back the host backing byte for byte. *)
Theorem SynchronizeGuest_SynchronizeHost_roundtrip (s : Buffer) :
  Forall (fun m => 0 <= size m) (mappings s) ->
  non_overlapping (mappings s) ->
  cycle s = None ->
  forall a, backing (SynchronizeHost gpu_work (SynchronizeGuest gpu_work s)) a
            = backing s a.
Proof.
  intros Hnn Hno Hidle a.
  unfold SynchronizeGuest. rewrite (WaitOnFence_idle gpu_work s Hidle).
  unfold SynchronizeHost.
  rewrite (WaitOnFence_idle gpu_work (host_to_guest s)) by exact Hidle.
  simpl. apply copy_to_host_fixed; [assumption|]. now apply copy_to_guest_agrees.
Qed.

Lemma destroy_dependencies_syncs (n : nat) :
  forall s,
    non_overlapping (mappings s) -> (0 < n)%nat ->
    agrees (mappings s) 0 (memory (destroy_dependencies n s)) (backing s).
Proof.
  induction n as [|n IH]; intros s Hno Hn; [lia|].
  cbn [destroy_dependencies].
  assert (Hsame : mappings (BufferGuestSync_destroy s) = mappings s
                  /\ backing (BufferGuestSync_destroy s) = backing s).
  { unfold BufferGuestSync_destroy, WaitOnFence_completed.
    destruct (cycle s); split; reflexivity. }
  destruct Hsame as [Hm Hb].
  destruct n as [|n].
  - simpl. unfold BufferGuestSync_destroy, WaitOnFence_completed.
    destruct (cycle s); simpl; now apply copy_to_guest_agrees.
  - rewrite <- Hm, <- Hb. apply IH; [now rewrite Hm|lia].
Qed.

(** X9. A deferred guest sync is carried out by the next fence wait: after
    SynchronizeGuestWithCycle(cycle) and WaitOnFence(), with disjoint
    regions, every guest region equals its part of the host backing as the
    cycle's GPU work left it; no cycle is pending and nothing hangs on
    [cycle] any more. *)
Theorem deferred_guest_sync_runs_on_wait (pCycle : CycleId) (s : Buffer) :
  non_overlapping (mappings s) ->
  let s1 := SynchronizeGuestWithCycle gpu_work pCycle s in
  let s' := WaitOnFence gpu_work s1 in
  memory s1 = memory (if negb (cycle_eqb (Some pCycle) (cycle s))
                      then WaitOnFence gpu_work s else s)
  /\ agrees (mappings s) 0 (memory s') (backing s')
  /\ backing s' = gpu_work pCycle (backing s1)
  /\ cycle s' = None
  /\ ~ In pCycle (attached s').
Proof.
  intros Hno s1 s'.
  destruct (perform_frame (OpSynchronizeGuestWithCycle pCycle) s) as (Hm & _).
  change (perform gpu_work (OpSynchronizeGuestWithCycle pCycle) s) with s1 in Hm.
  assert (Hc1 : cycle s1 = Some pCycle) by reflexivity.
  assert (Hin : In pCycle (attached s1)).
  { subst s1. unfold SynchronizeGuestWithCycle. simpl.
    apply in_app_iff. right. now left. }
  split; [reflexivity|].
  subst s'. unfold WaitOnFence. rewrite Hc1. unfold FenceCycle_Wait.
  destruct (complete_fields gpu_work pCycle (emit (EvWait pCycle) s1))
    as (Ha & _ & _ & Hb & _ & _).
  cbn [set_cycle memory backing cycle attached].
  rewrite Hb, Ha. cbn [emit backing attached].
  split; [|split; [reflexivity|split; [reflexivity|]]].
  - unfold complete. cbv zeta.
    match goal with
    | |- context [destroy_dependencies ?n ?x] =>
        destruct (destroy_dependencies_fields n x) as (_ & _ & _ & Hbx & _);
        pose proof (destroy_dependencies_syncs n x) as Hag
    end.
    cbn [emit set_attached set_backing mappings backing attached] in Hag, Hbx.
    rewrite <- Hm. apply Hag; [now rewrite Hm|].
    apply (count_occ_In Nat.eq_dec). exact Hin.
  - intros Hx. apply filter_In in Hx as [_ Hx]. rewrite Nat.eqb_refl in Hx. discriminate.
Qed.

(** X5. Constructing a Buffer and destroying it at once leaves every byte of
    guest memory as it was; the calls made are the initial copy to the host,
    lock, the copy back, the unmapping of the mirror, unlock. *)
Theorem Buffer_new_then_destroy
  (guest : list span) (memory0 backing0 : mem) (s : Buffer) :
  Forall (fun m => 0 <= size m) guest ->
  Buffer_new gpu_work guest memory0 backing0 = Returns s ->
  (forall a, memory (Buffer_destroy gpu_work s) a = memory0 a)
  /\ exists m, SetupGuestMappings guest = Returns m
               /\ trace (Buffer_destroy gpu_work s)
                  = [EvCopyToHost; EvLock; EvCopyToGuest;
                     EvMunmap (alignedMirror m); EvUnlock].
Proof.
  intros Hnn Hnew. unfold Buffer_new in Hnew.
  destruct (SetupGuestMappings guest) as [m| |]; try discriminate.
  injection Hnew as <-. split.
  - intros a. simpl. apply copy_to_guest_same; [|reflexivity].
    now apply copy_to_host_agrees.
  - exists m. split; reflexivity.
Qed.

End FrameFacts.

Lemma two_regions_sizes : Forall (fun m => 0 <= size m) two_regions.
Proof. repeat constructor; simpl; lia. Qed.

Lemma two_regions_disjoint : non_overlapping two_regions.
Proof. simpl. repeat constructor. intros a. unfold in_span. simpl. lia. Qed.

Lemma Buffer_new_initial_sync_witness :
  exists s, Buffer_new idle_gpu two_regions striped zeroed = Returns s
            /\ agrees two_regions 0 striped (backing s)
            /\ trace s = [EvCopyToHost].
Proof.
  eexists. split; [reflexivity|].
  destruct (Buffer_new_initial_sync idle_gpu two_regions striped zeroed _
              two_regions_sizes eq_refl) as (Hag & _ & _ & _ & _ & _ & _ & _ & Ht).
  split; [exact Hag|exact Ht].
Defined.

Lemma SynchronizeHost_idempotent_witness :
  backing (SynchronizeHost idle_gpu (SynchronizeHost idle_gpu fresh)) 0x21
  = backing (SynchronizeHost idle_gpu fresh) 0x21.
Proof.
  destruct (SynchronizeHost_idempotent idle_gpu fresh fresh_sizes) as (_ & Hidem & _).
  apply Hidem.
Defined.

Lemma SynchronizeGuest_SynchronizeHost_roundtrip_witness :
  backing (SynchronizeHost idle_gpu (SynchronizeGuest idle_gpu fresh)) 0x21
  = backing fresh 0x21.
Proof.
  apply (SynchronizeGuest_SynchronizeHost_roundtrip idle_gpu fresh).
  - exact fresh_sizes.
  - exact two_regions_disjoint.
  - reflexivity.
Defined.

Lemma deferred_guest_sync_runs_on_wait_witness :
  agrees (mappings fresh) 0
         (memory (WaitOnFence marking_gpu (SynchronizeGuestWithCycle marking_gpu 7%nat fresh)))
         (backing (WaitOnFence marking_gpu (SynchronizeGuestWithCycle marking_gpu 7%nat fresh)))
  /\ cycle (WaitOnFence marking_gpu (SynchronizeGuestWithCycle marking_gpu 7%nat fresh))
     = None.
Proof.
  destruct (deferred_guest_sync_runs_on_wait marking_gpu 7%nat fresh two_regions_disjoint)
    as (_ & Hag & _ & Hc & _).
  split; [exact Hag|exact Hc].
Defined.

Lemma Buffer_new_then_destroy_witness :
  exists s, Buffer_new idle_gpu two_regions striped zeroed = Returns s
            /\ memory (Buffer_destroy idle_gpu s) 0x1001 = striped 0x1001.
Proof.
  eexists. split; [reflexivity|].
  destruct (Buffer_new_then_destroy idle_gpu two_regions striped zeroed _
              two_regions_sizes eq_refl) as (Hmem & _).
  apply Hmem.
Defined.

(** ** Writes *)

(** X12. One Write of two pieces laid end to end is the Write of the first piece
    followed by the Write of the second right after it; if the first piece
    leaves the aligned mapping, so does the whole. *)
Theorem Write_app (bytes1 bytes2 : list Byte.byte) (offset : Z) (s : Buffer) :
  Write (bytes1 ++ bytes2) offset s =
  match Write bytes1 offset s with
  | Returns s1 => Write bytes2 (offset + Z.of_nat (length bytes1)) s1
  | Throws e => Throws e
  | Undefined => Undefined
  end.
Proof.
  unfold Write. destruct (mirror s) as [m|] eqn:Hm; [|reflexivity].
  rewrite write_bytes_app.
  destruct (write_bytes m offset bytes1 (memory s)) as [g1| |]; try reflexivity.
  simpl. rewrite Hm. reflexivity.
Qed.

Section WriteFacts.

Variable gpu_work : CycleId -> mem -> mem.

(** X13. A byte written through the mirror at a flat offset bypasses the host
    backing, and the next SynchronizeHost() brings it to that very offset of
    the backing; with disjoint regions no other offset of the backing sees a
    difference. *)
Theorem Write_reaches_host_on_sync
  (guest : list span) (memory0 backing0 : mem) (s s' : Buffer) (b : Byte.byte) (o : Z) :
  Forall span_wf guest -> total_size guest < 2 ^ 64 ->
  Buffer_new gpu_work guest memory0 backing0 = Returns s ->
  0 <= o < buffer_size s ->
  Write [b] o s = Returns s' ->
  backing s' = backing s
  /\ trace s' = trace s
  /\ backing (SynchronizeHost gpu_work s') o = b
  /\ (non_overlapping guest ->
      forall o', 0 <= o' < buffer_size s -> o' <> o ->
                 backing (SynchronizeHost gpu_work s') o'
                 = backing (SynchronizeHost gpu_work s) o').
Proof.
  intros Hwf Hsum Hnew Ho Hw.
  pose proof (span_wf_nonneg _ Hwf) as Hnn.
  destruct (Buffer_new_mirror gpu_work _ _ _ _ Hwf Hsum Hnew)
    as (m & Hmir & _ & Hsz & _ & Haddr).
  destruct (Buffer_new_fields gpu_work _ _ _ _ Hnew)
    as (_ & _ & _ & _ & Hmap & _ & Hcyc & _).
  rewrite Hsz in Ho.
  unfold Write in Hw. rewrite Hmir in Hw. cbn [write_bytes] in Hw.
  rewrite (Haddr o Ho) in Hw.
  destruct (spans_address guest o) as [a|] eqn:Ha; [|discriminate].
  injection Hw as <-.
  split; [reflexivity|]. split; [reflexivity|].
  assert (Hidle' : WaitOnFence gpu_work (set_memory (store (memory s) a b) s)
                   = set_memory (store (memory s) a b) s)
    by (apply WaitOnFence_idle; exact Hcyc).
  unfold SynchronizeHost. rewrite Hidle', (WaitOnFence_idle gpu_work s Hcyc).
  cbn [guest_to_host emit set_backing set_memory backing mappings memory].
  rewrite Hmap.
  assert (Hflat : forall g bk x, 0 <= x < total_size guest ->
                    exists a', spans_address guest x = Some a'
                               /\ copy_to_host guest 0 g bk x = g a').
  { intros g bk x Hx.
    destruct (agrees_flat guest 0 g (copy_to_host guest 0 g bk) x Hnn
                (copy_to_host_agrees guest 0 g bk Hnn) Hx) as (a' & Ha' & Hb').
    exists a'. split; [exact Ha'|]. now rewrite <- Hb'. }
  split.
  - destruct (Hflat (store (memory s) a b) (backing s) o Ho) as (a' & Ha' & ->).
    rewrite Ha in Ha'. injection Ha' as <-. unfold store. now rewrite Z.eqb_refl.
  - intros Hno o' Ho' Hne. rewrite Hsz in Ho'.
    destruct (Hflat (store (memory s) a b) (backing s) o' Ho') as (a1 & Ha1 & ->).
    destruct (Hflat (memory s) (backing s) o' Ho') as (a2 & Ha2 & ->).
    rewrite Ha1 in Ha2. injection Ha2 as <-.
    unfold store. destruct (a1 =? a) eqn:E; [|reflexivity].
    apply Z.eqb_eq in E. subst a1. exfalso. apply Hne.
    apply (spans_address_inj guest o' o a); try assumption; lia.
Qed.

End WriteFacts.

Lemma Write_reaches_host_on_sync_witness :
  exists s', Write [Byte.x7f] 0x25 fresh = Returns s'
             /\ backing (SynchronizeHost idle_gpu s') 0x25 = Byte.x7f.
Proof.
  eexists. split; [reflexivity|].
  destruct (Write_reaches_host_on_sync idle_gpu two_regions zeroed zeroed fresh
              (set_memory (store (memory fresh) 0x4005 Byte.x7f) fresh)
              Byte.x7f 0x25 two_regions_wf two_regions_fit fresh_constructed)
    as (_ & _ & Hb & _).
  - change (buffer_size fresh) with 0x30. lia.
  - reflexivity.
  - exact Hb.
Defined.

(** ** Views *)

Lemma find_view_app (h : list ViewCell) (o r f : Z) (ws1 ws2 : list ViewId) :
  find_view h o r f (ws1 ++ ws2) =
  match find_view h o r f ws1 with
  | Some w => Some w
  | None => find_view h o r f ws2
  end.
Proof.
  induction ws1 as [|x ws1 IH]; simpl; [reflexivity|].
  destruct (lock_weak h x) as [v|]; [|exact IH].
  destruct (view_matches v o r f); [reflexivity|exact IH].
Qed.

Lemma lock_weak_bound (h : list ViewCell) (w : ViewId) (v : BufferView) :
  lock_weak h w = Some v -> (w < length h)%nat.
Proof.
  unfold lock_weak. destruct (nth_error h w) eqn:E; [|discriminate].
  intros _. apply nth_error_Some. congruence.
Qed.

Lemma find_view_grown (h : list ViewCell) (o r f : Z) (ws : list ViewId) :
  find_view h o r f ws = None ->
  let cell := {| cell_view := {| offset := o; range := r; format := f |};
                 alive := true |} in
  find_view (h ++ [cell]) o r f ws = None
  \/ find_view (h ++ [cell]) o r f ws = Some (length h).
Proof.
  intros Hnone cell. induction ws as [|x ws IH]; simpl in *; [now left|].
  destruct (lt_eq_lt_dec x (length h)) as [[Hlt|Heq]|Hgt].
  - rewrite lock_weak_old by assumption.
    destruct (lock_weak h x) as [v|]; [|now apply IH].
    destruct (view_matches v o r f); [discriminate|now apply IH].
  - subst x. unfold cell. rewrite lock_weak_new.
    replace (view_matches {| offset := o; range := r; format := f |} o r f) with true
      by (symmetry; now apply view_matches_eq).
    now right.
  - assert (Hn : lock_weak (h ++ [cell]) x = None).
    { unfold lock_weak. replace (nth_error (h ++ [cell]) x) with (@None ViewCell);
        [reflexivity|].
      symmetry. apply nth_error_None. rewrite length_app. simpl. lia. }
    rewrite Hn. apply IH.
    destruct (lock_weak h x) as [v|]; [|assumption].
    destruct (view_matches v o r f); [discriminate|assumption].
Qed.

Lemma GetView_returns_live (o r f : Z) (s s' : Buffer) (v : ViewId) :
  GetView o r f s = Returns (v, s') ->
  live_view s' v {| offset := o; range := r; format := f |}.
Proof.
  intros Hg.
  destruct (GetView_cases o r f s) as [(w & Hf & Hr)|(_ & Hr)];
    rewrite Hr in Hg; injection Hg as <- <-.
  - now apply find_view_some in Hf.
  - split; simpl.
    + apply in_app_iff. right. now left.
    + apply lock_weak_new.
Qed.

(** X15. Asking again for the view just obtained returns the same view and
    leaves the cache as it is, whatever state the Buffer was in. *)
Theorem GetView_twice_same (o r f : Z) (s s1 : Buffer) (v : ViewId) :
  GetView o r f s = Returns (v, s1) ->
  GetView o r f s1 = Returns (v, s1).
Proof.
  intros Hg.
  destruct (GetView_cases o r f s) as [(w & Hf & Hr)|(Hnone & Hr)];
    rewrite Hr in Hg; injection Hg as <- <-.
  - exact Hr.
  - unfold GetView. cbn [set_views heap views].
    rewrite find_view_app.
    destruct (find_view_grown _ _ _ _ _ Hnone) as [-> | ->]; [|reflexivity].
    cbn [find_view]. rewrite lock_weak_new.
    replace (view_matches {| offset := o; range := r; format := f |} o r f) with true
      by (symmetry; now apply view_matches_eq).
    reflexivity.
Qed.

Lemma GetView_twice_same_witness :
  GetView 0 4 0 (perform_views [VGetView 0 4 0] fresh)
  = Returns (0%nat, perform_views [VGetView 0 4 0] fresh).
Proof.
  apply (GetView_twice_same 0 4 0 fresh).
  reflexivity.
Defined.

(** X16. Requests for different (offset, range, format) never share a view:
    the second request returns another view, and both views are alive with
    their own triple afterwards. *)
Theorem GetView_distinct_triples
  (o1 r1 f1 o2 r2 f2 : Z) (s s1 s2 : Buffer) (v1 v2 : ViewId) :
  {| offset := o1; range := r1; format := f1 |}
  <> {| offset := o2; range := r2; format := f2 |} ->
  GetView o1 r1 f1 s = Returns (v1, s1) ->
  GetView o2 r2 f2 s1 = Returns (v2, s2) ->
  v1 <> v2
  /\ lock_weak (heap s2) v1 = Some {| offset := o1; range := r1; format := f1 |}
  /\ lock_weak (heap s2) v2 = Some {| offset := o2; range := r2; format := f2 |}.
Proof.
  intros Hne Hg1 Hg2.
  destruct (GetView_returns_live _ _ _ _ _ _ Hg1) as [_ Hl1].
  destruct (GetView_returns_live _ _ _ _ _ _ Hg2) as [_ Hl2].
  pose proof (lock_weak_bound _ _ _ Hl1) as Hb1.
  destruct (GetView_cases o2 r2 f2 s1) as [(w & Hf & Hr)|(_ & Hr)];
    rewrite Hr in Hg2; injection Hg2 as <- <-.
  - apply find_view_some in Hf as [_ Hl]. repeat split; try assumption.
    intros ->. congruence.
  - repeat split; try assumption.
    + lia.
    + cbn [set_views heap]. now rewrite lock_weak_old.
Qed.

Lemma GetView_distinct_triples_witness :
  (0 <> 1)%nat
  /\ lock_weak (heap (perform_views [VGetView 0 4 0; VGetView 8 4 0] fresh)) 0%nat
     = Some {| offset := 0; range := 4; format := 0 |}.
Proof.
  destruct (GetView_distinct_triples 0 4 0 8 4 0 fresh
              (perform_views [VGetView 0 4 0] fresh)
              (perform_views [VGetView 0 4 0; VGetView 8 4 0] fresh)
              0%nat 1%nat) as (Hne & Hl & _).
  - discriminate.
  - reflexivity.
  - reflexivity.
  - split; [exact Hne|exact Hl].
Defined.

Lemma lock_weak_kill_self (h : list ViewCell) :
  forall w, lock_weak (kill h w) w = None.
Proof.
  induction h as [|c h IH]; intros w; unfold lock_weak; simpl.
  - now destruct w.
  - destruct w as [|w]; simpl; [reflexivity|]. apply IH.
Qed.

(** X17. Once every owner of a view has let go of it, the next request for its
    triple makes a new view with a new identity; the old one stays dead. *)
Theorem GetView_after_release
  (ops : list view_operation) (s0 s1 : Buffer) (o r f : Z) (v : ViewId) :
  no_views s0 ->
  GetView o r f (perform_views ops s0) = Returns (v, s1) ->
  exists s3,
    GetView o r f (release_view v s1) = Returns (length (heap s1), s3)
    /\ length (heap s1) <> v
    /\ lock_weak (heap s3) v = None
    /\ live_view s3 (length (heap s1)) {| offset := o; range := r; format := f |}.
Proof.
  intros [Hv Hh] Hg.
  assert (Hinv : views_in_heap (perform_views ops s0)
                 /\ deduplicated (perform_views ops s0)).
  { apply perform_views_keep. split.
    - intros w Hw. rewrite Hv in Hw. contradiction.
    - intros w1 w2 x [Hw1 _]. rewrite Hv in Hw1. contradiction. }
  pose proof (perform_view_keeps (VGetView o r f) _ Hinv) as [Hb1 Hd1].
  simpl in Hb1, Hd1. rewrite Hg in Hb1, Hd1.
  pose proof (GetView_returns_live _ _ _ _ _ _ Hg) as Hlive.
  pose proof (lock_weak_bound _ _ _ (proj2 Hlive)) as Hbound.
  assert (Hnone : find_view (heap (release_view v s1)) o r f (views (release_view v s1))
                  = None).
  { destruct (find_view (heap (release_view v s1)) o r f (views (release_view v s1)))
      as [w|] eqn:Hf; [|reflexivity].
    apply find_view_some in Hf as [Hw Hl]. simpl in Hw, Hl.
    apply lock_weak_kill in Hl as [Hl Hne].
    exfalso. apply Hne. apply (Hd1 w v _ (conj Hw Hl) Hlive). }
  destruct (GetView_cases o r f (release_view v s1)) as [(w & Hf & _)|(_ & Hr)];
    [congruence|].
  cbn [release_view set_views heap views] in Hr. rewrite kill_length in Hr.
  eexists. split; [exact Hr|]. split; [lia|]. split.
  - cbn [set_views heap]. rewrite lock_weak_old by (rewrite kill_length; lia).
    apply lock_weak_kill_self.
  - split; cbn [set_views heap views].
    + apply in_app_iff. right. now left.
    + rewrite <- (kill_length (heap s1) v). apply lock_weak_new.
Qed.

Lemma GetView_after_release_witness :
  exists s3,
    GetView 0 4 0 (release_view 0%nat (perform_views [VGetView 0 4 0] fresh))
    = Returns (1%nat, s3)
    /\ lock_weak (heap s3) 0%nat = None.
Proof.
  destruct (GetView_after_release [] fresh (perform_views [VGetView 0 4 0] fresh)
              0 4 0 0%nat) as (s3 & Hg & _ & Hdead & _).
  - split; reflexivity.
  - reflexivity.
  - exists s3. split; [exact Hg|exact Hdead].
Defined.

(** ** Locking *)

Lemma run_app (l1 l2 : list label) :
  forall c, run (l1 ++ l2) c = match run l1 c with
                               | Some c' => run l2 c'
                               | None => None
                               end.
Proof.
  induction l1 as [|l l1 IH]; intros c; simpl; [reflexivity|].
  destruct (exec l c); [apply IH|reflexivity].
Qed.

Lemma run_environment (env : list label) :
  forall p w p' w',
    forallb is_environment env = true ->
    run env (p, w) = Some (p', w') ->
    p' = p /\ forall b, holds w' b <-> holds w b.
Proof.
  induction env as [|l env IH]; intros p w p' w' Henv H;
    cbn [run forallb] in *.
  - injection H as <- <-. split; [reflexivity|]. intros b. reflexivity.
  - apply andb_true_iff in Henv as [Hl Henv].
    destruct (exec l (p, w)) as [[p1 w1]|] eqn:E; [|discriminate].
    destruct (environment_keeps_holdings l p p1 w w1 Hl E) as [-> Hh1].
    destruct (IH _ _ _ _ Henv H) as [-> Hh2].
    split; [reflexivity|]. intros b. now rewrite Hh2.
Qed.

Lemma run_swap_free (env : list label) :
  forall p w p' w',
    swap_free env = true ->
    run env (p, w) = Some (p', w') ->
    p' = p /\ buffer w' = buffer w.
Proof.
  induction env as [|l env IH]; intros p w p' w' Henv H;
    unfold swap_free in Henv; cbn [run forallb] in *.
  - injection H as <- <-. split; reflexivity.
  - apply andb_true_iff in Henv as [Hl Henv].
    apply andb_true_iff in Hl as [Hl Hs].
    destruct (exec l (p, w)) as [[p1 w1]|] eqn:E; [|discriminate].
    destruct (IH _ _ _ _ Henv H) as [-> Hb].
    destruct l as [| |b|t b|t b]; try discriminate; cbn [exec] in E.
    + destruct (Nat.eqb t caller); [discriminate|].
      destruct (owner w b); [discriminate|]. injection E as <- <-.
      split; [reflexivity|exact Hb].
    + destruct (Nat.eqb t caller); [discriminate|].
      destruct (thread_eqb (owner w b) t); [|discriminate]. injection E as <- <-.
      split; [reflexivity|exact Hb].
Qed.

(** X18. [unlock()] pairs with [lock()] (or a successful [try_lock()]) only if
    the view's Buffer is the same at both: then it releases the mutex taken
    and the caller holds none; if the Buffer was replaced in between, the
    call unlocks a mutex the caller does not own, which is undefined, and
    the mutex taken stays locked. *)
Theorem unlock_pairs_with_lock
  (c0 : config) (schedule env : list label) (p : pc) (b : BufferId) (w w' : shared) :
  initial c0 ->
  run schedule c0 = Some (p, w) ->
  p = LockReturned b \/ p = TryReturned b true ->
  forallb is_environment env = true ->
  run env (p, w) = Some (p, w') ->
  holds w' b
  /\ (buffer w' = b ->
      exists w'', unlock w' = Returns w''
                  /\ buffer w'' = b
                  /\ forall x, ~ holds w'' x)
  /\ (buffer w' <> b -> unlock w' = Undefined).
Proof.
  intros Hinit Hrun Hp Henv Hrun'.
  pose proof (run_keeps_invariant schedule c0 (p, w)
                (initial_invariant c0 Hinit) Hrun) as Hinv.
  destruct (run_environment env p w p w' Henv Hrun') as [_ Hsame].
  assert (Hheld : forall x, holds w' x <-> x = b).
  { intros x. rewrite Hsame. unfold lock_invariant in Hinv. simpl in Hinv.
    rewrite Hinv. destruct Hp as [-> | ->]; simpl; split; congruence. }
  split; [now apply Hheld|]. unfold unlock. split.
  - intros Hb. rewrite Hb.
    assert (Ho : owner w' b = Some caller) by now apply Hheld.
    rewrite Ho. simpl. eexists. split; [reflexivity|]. split; [exact Hb|].
    intros x Hx. apply holds_set_owner in Hx as [[_ Hx]|[Hne Hx]]; [discriminate|].
    apply Hheld in Hx. contradiction.
  - intros Hb.
    destruct (thread_eqb (owner w' (buffer w')) caller) eqn:E; [|reflexivity].
    exfalso. apply Hb. apply Hheld. unfold holds.
    unfold thread_eqb in E. destruct (owner w' (buffer w')) as [u|]; [|discriminate].
    apply Nat.eqb_eq in E. now subst u.
Qed.

Lemma unlock_pairs_with_lock_witness :
  let w := set_owner 1%nat (Some caller) view_on_1 in
  holds w 1%nat
  /\ exists w'', unlock w = Returns w'' /\ buffer w'' = 1%nat /\ forall x, ~ holds w'' x.
Proof.
  cbv zeta.
  assert (Hinit : initial (LockEntry, view_on_1)).
  { split; [now left|]. intros b H. discriminate H. }
  destruct (unlock_pairs_with_lock (LockEntry, view_on_1) [Step; Step; Step] []
              (LockReturned 1%nat) 1%nat
              (set_owner 1%nat (Some caller) view_on_1)
              (set_owner 1%nat (Some caller) view_on_1)
              Hinit eq_refl (or_introl eq_refl) eq_refl eq_refl)
    as (Hh & Hsame & _).
  split; [exact Hh|]. apply Hsame. reflexivity.
Defined.

Lemma swap_free_environment (env : list label) :
  swap_free env = true -> forallb is_environment env = true.
Proof.
  unfold swap_free. induction env as [|l env IH]; simpl; [reflexivity|].
  intros H. apply andb_true_iff in H as [Hl H].
  apply andb_true_iff in Hl as [Hl _]. rewrite Hl. simpl. now apply IH.
Qed.

(** X19. Retries come from replacements only. If the view's Buffer is not
    replaced while the call runs, then whatever else other threads do:
    [lock()] returns after a single acquisition, holding the mutex of the
    Buffer the view named at the start, provided that mutex is free when
    [lock()] reaches for it, and does not get past that point while it is
    taken; [try_lock()] returns after a single attempt in every case, with
    true (and the mutex held) exactly when the mutex was free and the
    attempt did not fail spuriously. *)
Theorem lock_single_attempt_without_swap
  (w w1 w2 : shared) (env1 env2 : list label) :
  swap_free env1 = true ->
  swap_free env2 = true ->
  let b := buffer w in
  (run env1 (LockAcquire b, w) = Some (LockAcquire b, w1) ->
   (owner w1 b = None ->
    run env2 (LockRecheck b, set_owner b (Some caller) w1) = Some (LockRecheck b, w2) ->
    run (Step :: env1 ++ Step :: env2 ++ [Step]) (LockEntry, w)
    = Some (LockReturned b, w2)
    /\ buffer w2 = b /\ holds w2 b)
   /\ (owner w1 b <> None ->
       forall rest, run (Step :: env1 ++ Step :: rest) (LockEntry, w) = None))
  /\ (run env1 (TryAcquire b, w) = Some (TryAcquire b, w1) ->
      forall attempt,
        attempt = Step \/ attempt = StepSpurious ->
        let success := match attempt, owner w1 b with
                       | Step, None => true
                       | _, _ => false
                       end in
        run env2 (TryRecheck b success,
                  if success then set_owner b (Some caller) w1 else w1)
        = Some (TryRecheck b success, w2) ->
        run (Step :: env1 ++ attempt :: env2 ++ [Step]) (TryEntry, w)
        = Some (TryReturned b success, w2)
        /\ buffer w2 = b /\ (success = true -> holds w2 b)).
Proof.
  cbv zeta. intros H1 H2. split.
  - intros E1. destruct (run_swap_free _ _ _ _ _ H1 E1) as [_ Hb1]. split.
    + intros Hfree E2.
      destruct (run_swap_free _ _ _ _ _ H2 E2) as [_ Hb2].
      cbn [set_owner buffer] in Hb2.
      destruct (run_environment _ _ _ _ _ (swap_free_environment _ H2) E2) as [_ Hh].
      assert (Hbuf : buffer w2 = buffer w) by congruence.
      split; [|split; [exact Hbuf|]].
      * cbn [run exec caller_step]. rewrite run_app, E1.
        cbn [run exec caller_step]. rewrite Hfree. rewrite run_app, E2.
        cbn [run exec caller_step]. rewrite Hbuf, Nat.eqb_refl. reflexivity.
      * apply Hh. apply holds_set_owner. left. now split.
    + intros Hbusy rest. cbn [run exec caller_step]. rewrite run_app, E1.
      cbn [run exec caller_step]. destruct (owner w1 (buffer w)); [reflexivity|congruence].
  - intros E1 attempt Hat E2.
    set (success := match attempt, owner w1 (buffer w) with
                    | Step, None => true
                    | _, _ => false
                    end) in *.
    destruct (run_swap_free _ _ _ _ _ H1 E1) as [_ Hb1].
    destruct (run_swap_free _ _ _ _ _ H2 E2) as [_ Hb2].
    destruct (run_environment _ _ _ _ _ (swap_free_environment _ H2) E2) as [_ Hh].
    assert (Hbuf : buffer w2 = buffer w).
    { rewrite Hb2. destruct success; cbn [set_owner buffer]; exact Hb1. }
    assert (Hstep : exec attempt (TryAcquire (buffer w), w1)
                    = Some (TryRecheck (buffer w) success,
                            if success then set_owner (buffer w) (Some caller) w1
                            else w1)).
    { subst success. destruct Hat as [-> | ->]; cbn [exec caller_step].
      - destruct (owner w1 (buffer w)); reflexivity.
      - reflexivity. }
    split; [|split; [exact Hbuf|]].
    + cbn [run exec caller_step]. rewrite run_app, E1.
      cbn [run]. rewrite Hstep. rewrite run_app, E2.
      cbn [run exec caller_step]. rewrite Hbuf, Nat.eqb_refl. reflexivity.
    + intros Hs. apply Hh. rewrite Hs. apply holds_set_owner. left. now split.
Qed.

Lemma lock_single_attempt_without_swap_witness :
  let w1 := set_owner 2%nat (Some 3%nat) view_on_1 in
  let w2 := set_owner 2%nat None (set_owner 1%nat (Some caller) w1) in
  run (Step :: [OtherLock 3%nat 2%nat] ++ Step :: [OtherUnlock 3%nat 2%nat] ++ [Step])
      (LockEntry, view_on_1)
  = Some (LockReturned 1%nat, w2)
  /\ buffer w2 = 1%nat /\ holds w2 1%nat.
Proof.
  cbv zeta.
  destruct (lock_single_attempt_without_swap view_on_1
              (set_owner 2%nat (Some 3%nat) view_on_1)
              (set_owner 2%nat None
                 (set_owner 1%nat (Some caller)
                    (set_owner 2%nat (Some 3%nat) view_on_1)))
              [OtherLock 3%nat 2%nat] [OtherUnlock 3%nat 2%nat] eq_refl eq_refl)
    as (Hlock & _).
  destruct (Hlock eq_refl) as (Hfree & _).
  apply Hfree; reflexivity.
Defined.

(** ** What the operations leave alone *)

Section PendingCycle.

Variable gpu_work : CycleId -> mem -> mem.

(** X11. Only SynchronizeGuestWithCycle makes a cycle pending: after any other
    operation a cycle is pending only if it already was. In particular
    SynchronizeHostWithCycle(cycle) does not record [cycle]. *)
Theorem only_SynchronizeGuestWithCycle_sets_cycle
  (op : operation) (s : Buffer) (c : CycleId) :
  cycle (perform gpu_work op s) = Some c ->
  cycle s = Some c \/ op = OpSynchronizeGuestWithCycle c.
Proof.
  destruct (WaitOnFence_fields gpu_work s) as (_ & _ & Hw & _).
  destruct op as [| |pCycle| |pCycle|x]; simpl.
  - rewrite Hw. discriminate.
  - rewrite Hw. discriminate.
  - unfold SynchronizeHostWithCycle.
    destruct (negb (cycle_eqb pCycle (cycle s))); simpl.
    + rewrite Hw. discriminate.
    + now left.
  - rewrite Hw. discriminate.
  - intros H. injection H as ->. now right.
  - destruct (complete_fields gpu_work x s) as (_ & _ & _ & _ & -> & _).
    destruct (count_occ Nat.eq_dec (attached s) x); [now left|discriminate].
Qed.

(** X14. A Write that keeps to the mirror,
    [offset + data.size() <= mirror length], changes guest memory inside the
    Buffer's regions only, and nothing else of the Buffer: not the host
    backing, the pending cycle, the geometry, the mirror or the views. *)
Theorem Write_stays_in_regions
  (guest : list span) (memory0 backing0 : mem) (s s' : Buffer)
  (bytes : list Byte.byte) (offset : Z) :
  Forall span_wf guest -> total_size guest < 2 ^ 64 ->
  Buffer_new gpu_work guest memory0 backing0 = Returns s ->
  0 <= offset -> offset + Z.of_nat (length bytes) <= mirror_length s ->
  Write bytes offset s = Returns s' ->
  same_frame s s' /\ backing s' = backing s /\ cycle s' = cycle s.
Proof.
  intros Hwf Hsum Hnew H0 Hlen Hw.
  destruct (Buffer_new_mirror gpu_work _ _ _ _ Hwf Hsum Hnew)
    as (m & Hmir & Hms & _ & _ & Haddr).
  destruct (Buffer_new_fields gpu_work _ _ _ _ Hnew) as (_ & _ & _ & _ & Hmap & _).
  unfold mirror_length in Hlen. rewrite Hmir, Hms in Hlen.
  unfold Write in Hw. rewrite Hmir in Hw.
  destruct (write_bytes m offset bytes (memory s)) as [g| |] eqn:Hwb; try discriminate.
  injection Hw as <-. split; [|split; reflexivity].
  repeat split. intros a Ha. cbn [set_memory memory].
  apply (write_bytes_untouched _ _ _ _ _ a Hwb).
  intros i Hi Hc.
  rewrite (Haddr (offset + i)) in Hc by lia.
  apply spans_address_in_span in Hc; [|lia].
  apply Exists_exists in Hc as (t & Ht & Hin).
  unfold outside_regions in Ha. rewrite Hmap, Forall_forall in Ha.
  exact (Ha t Ht Hin).
Qed.

End PendingCycle.

Lemma only_SynchronizeGuestWithCycle_sets_cycle_witness :
  cycle (SynchronizeGuestWithCycle idle_gpu 7%nat fresh) = Some 7%nat
  \/ OpSynchronizeHostWithCycle (Some 7%nat) = OpSynchronizeGuestWithCycle 7%nat.
Proof.
  apply (only_SynchronizeGuestWithCycle_sets_cycle idle_gpu
           (OpSynchronizeHostWithCycle (Some 7%nat))
           (SynchronizeGuestWithCycle idle_gpu 7%nat fresh) 7%nat).
  reflexivity.
Defined.

Lemma Write_stays_in_regions_witness :
  exists s', Write [Byte.x01; Byte.x02; Byte.x03] 0x1e fresh = Returns s'
             /\ same_frame fresh s'.
Proof.
  eexists. split; [reflexivity|].
  match goal with
  | |- same_frame _ ?x =>
      destruct (Write_stays_in_regions idle_gpu two_regions zeroed zeroed fresh x
                  [Byte.x01; Byte.x02; Byte.x03] 0x1e
                  two_regions_wf two_regions_fit fresh_constructed)
        as (Hframe & _)
  end.
  - lia.
  - vm_compute. discriminate.
  - reflexivity.
  - exact Hframe.
Defined.
